(** * The completion session engine of the LSP plugin (lsp-plugin/plugin.go)

    A shallow embedding of the edit handler of [plugin.go]: the change
    synchroniser ([handle]), the completion state machine ([complete],
    [getCompletionItems]), the ranking pass ([matchCompletionItems]) and the
    word scan ([getWord]), followed by the properties the specification
    states about them.

    Conventions of the embedding.
    - A Go [int] is a [Z]; the places where the code computes one
      ([startCol--], [startCol++], [int(view.Rev)]) go through [int_wrap].
    - A Go [string] is a [string] of bytes; [[]rune(s)] is [runes s], the
      UTF-8 decoding Go performs, and [len(s)] is [String.length s].
    - A slice is the list of its elements (the code only looks at [len], so a
      nil slice and an empty one are the same list).
    - A [*lsp.CompletionItem] is a location [loc] of a heap of items; a nil
      or dangling pointer is a location the heap does not hold, and
      dereferencing it panics.
    - A panic is the outcome [Panic]; the state reached before it is kept,
      because [handle] recovers and the plugin lives on.
    - Calls that leave the plugin (backend notifications and queries,
      listener notifications) are appended to a trace of events. *)

From Stdlib Require Import ZArith String Ascii List Lia.
From Stdlib Require Import Sorting.Sorted.
From stdpp Require Import gmap strings list fin_maps.

Local Open Scope Z_scope.

(** ** Outcomes and the two monads *)

Inductive Outcome (A : Type) : Type :=
| Ok (a : A)
| Panic.
Arguments Ok {A} a.
Arguments Panic {A}.

#[global] Instance Outcome_ret : MRet Outcome := fun _ a => Ok a.
#[global] Instance Outcome_bind : MBind Outcome := fun _ _ f m =>
  match m with
  | Ok a => f a
  | Panic => Panic
  end.

(** A computation over a state [S] that may panic; the state survives. *)
Definition M (S A : Type) : Type := S -> Outcome A * S.

#[global] Instance M_ret {S} : MRet (M S) := fun _ a s => (Ok a, s).
#[global] Instance M_bind {S} : MBind (M S) := fun _ _ f m s =>
  match m s with
  | (Ok a, s') => f a s'
  | (Panic, s') => (Panic, s')
  end.

Definition get {S} : M S S := fun s => (Ok s, s).
Definition modify {S} (f : S -> S) : M S unit := fun s => (Ok tt, f s).
Definition liftO {S A} (o : Outcome A) : M S A := fun s => (o, s).

(** ** Go integers, indexing, strings *)

Definition int_wrap (z : Z) : Z := (z + 2 ^ 63) mod 2 ^ 64 - 2 ^ 63.

(** [s[i]] on a slice: a run-time panic outside [0 <= i < len(s)]. *)
Definition index {A} (s : list A) (i : Z) : Outcome A :=
  if i <? 0 then Panic
  else match s !! Z.to_nat i with
       | Some a => Ok a
       | None => Panic
       end.

Definition len {A} (s : list A) : Z := Z.of_nat (length s).

Definition rune : Type := Z.
Definition RuneError : rune := 0xFFFD.

Definition bytes (s : string) : list Z :=
  map (fun a => Z.of_N (N_of_ascii a)) (list_ascii_of_string s).

Definition between (lo hi b : Z) : bool := (lo <=? b) && (b <=? hi).

(** The leading-byte table of Go's unicode/utf8: the width of the sequence
    and the range accepted for its second byte. *)
Definition first (b0 : Z) : option (nat * Z * Z) :=
  if between 0xC2 0xDF b0 then Some (2%nat, 0x80, 0xBF)
  else if b0 =? 0xE0 then Some (3%nat, 0xA0, 0xBF)
  else if between 0xE1 0xEC b0 then Some (3%nat, 0x80, 0xBF)
  else if b0 =? 0xED then Some (3%nat, 0x80, 0x9F)
  else if between 0xEE 0xEF b0 then Some (3%nat, 0x80, 0xBF)
  else if b0 =? 0xF0 then Some (4%nat, 0x90, 0xBF)
  else if between 0xF1 0xF3 b0 then Some (4%nat, 0x80, 0xBF)
  else if b0 =? 0xF4 then Some (4%nat, 0x80, 0x8F)
  else None.

Definition low6 (b : Z) : Z := Z.land b 0x3F.

(** [utf8.DecodeRune]: the rune at the front and its width; an invalid or
    truncated sequence is [RuneError] of width 1. *)
Definition DecodeRune (bs : list Z) : rune * nat :=
  match bs with
  | [] => (RuneError, 0%nat)
  | b0 :: t =>
    if b0 <? 0x80 then (b0, 1%nat)
    else match first b0, t with
         | Some (2%nat, lo, hi), b1 :: _ =>
           if between lo hi b1
           then (Z.lor (Z.shiftl (Z.land b0 0x1F) 6) (low6 b1), 2%nat)
           else (RuneError, 1%nat)
         | Some (3%nat, lo, hi), b1 :: b2 :: _ =>
           if between lo hi b1 && between 0x80 0xBF b2
           then (Z.lor (Z.shiftl (Z.land b0 0x0F) 12)
                   (Z.lor (Z.shiftl (low6 b1) 6) (low6 b2)), 3%nat)
           else (RuneError, 1%nat)
         | Some (4%nat, lo, hi), b1 :: b2 :: b3 :: _ =>
           if between lo hi b1 && between 0x80 0xBF b2 && between 0x80 0xBF b3
           then (Z.lor (Z.shiftl (Z.land b0 0x07) 18)
                   (Z.lor (Z.shiftl (low6 b1) 12)
                      (Z.lor (Z.shiftl (low6 b2) 6) (low6 b3))), 4%nat)
           else (RuneError, 1%nat)
         | _, _ => (RuneError, 1%nat)
         end
  end.

(** The conversion loop; every step consumes at least one byte, so the
    number of bytes is enough fuel. *)
Fixpoint decode (fuel : nat) (bs : list Z) : list rune :=
  match fuel, bs with
  | S fuel', _ :: _ =>
    let '(r, w) := DecodeRune bs in r :: decode fuel' (drop w bs)
  | _, _ => []
  end.

(** [[]rune(s)] *)
Definition runes (s : string) : list rune :=
  decode (String.length s) (bytes s).

(** [string(rs)] for runes below 0x80, enough to write test data. *)
Definition ascii_runes (s : string) : list rune := bytes s.

(** ** Data of the collaborating packages *)

Module plugin.
(** An entry of [LineCache.Lines]. *)
Record Line : Type := { Text : string }.

Record LineCache : Type := {
  Raw : string;
  (** [None] is a nil entry. *)
  Lines : list (option Line)
}.

(** The field [LineCache] is [Cache] here, the type has the name. *)
Record View : Type := {
  ID : string;
  Path : string;
  Syntax : string;
  Rev : Z;
  Cache : LineCache
}.
End plugin.

Module lsp.
Record Position : Type := { Line : Z; Character : Z }.

(** [End] is reserved, the field is [End_]. *)
Record Range : Type := { Start : Position; End_ : Position }.

(** The field [Range] is [Range_]; [None] is the nil pointer. *)
Record ContentChange : Type := { Range_ : option Range; Text : string }.

Record VersionedTextDocumentIdentifier : Type := { URI : string; Version : Z }.

Record DidChangeParams : Type := {
  TextDocument : VersionedTextDocumentIdentifier;
  ContentChanges : list ContentChange
}.

(** [TextDocumentIdentifier] has the one field [URI], inlined as [DocURI]. *)
Record TextDocumentPositionParams : Type := {
  DocURI : string;
  Position_ : Position
}.

Record CompletionItem : Type := {
  InsertText : string;
  Score : Z;
  Matches : list Z
}.

(** Of a client the code reads [ServerCapabilities.TextDocumentSync];
    [Language] is the syntax it was created for. *)
Record Client : Type := { Language : string; TextDocumentSync : Z }.
End lsp.

(** An edit as the text model reports it: the seven results of
    [view.ApplyUpdate]. *)
Record EditDelta : Type := {
  startRow : Z;
  startCol : Z;
  endRow : Z;
  endCol : Z;
  text : string;
  deletedText : string;
  changed : bool
}.

(** ** The plugin and what it sends *)

Definition loc : Type := positive.

Inductive Event : Type :=
(** [lspClient.DidChange(didChange)] *)
| DidChange (c : lsp.Client) (params : lsp.DidChangeParams)
(** [lspClient.Completion(params)] and what came back ([None]: an error) *)
| CompletionQuery (c : lsp.Client) (params : lsp.TextDocumentPositionParams)
    (reply : option (list lsp.CompletionItem))
(** [conn.Notify(ctx, "completion", items)]: the items as marshalled at the
    call, a nil pointer as [None] *)
| NotifyCompletion (conn : string) (items : list (option lsp.CompletionItem))
(** [conn.Notify(ctx, "completion_pos", pos)] *)
| NotifyCompletionPos (conn : string) (pos : lsp.Position).

(** The struct [Plugin]. [conns] lists the keys of the map in the order the
    range loops visit them; [heap] holds the items the pointers of
    [completionItems] point to; [trace] is the history of calls out. *)
Record Plugin : Type := {
  lsp : gmap string lsp.Client;
  views : gmap string plugin.View;
  conns : list string;
  completionItems : list loc;
  completionShown : bool;
  heap : gmap loc lsp.CompletionItem;
  trace : list Event
}.

Definition set_views (v : gmap string plugin.View) (p : Plugin) : Plugin :=
  {| lsp := lsp p; views := v; conns := conns p;
     completionItems := completionItems p; completionShown := completionShown p;
     heap := heap p; trace := trace p |}.

Definition set_completionItems (items : list loc) (p : Plugin) : Plugin :=
  {| lsp := lsp p; views := views p; conns := conns p;
     completionItems := items; completionShown := completionShown p;
     heap := heap p; trace := trace p |}.

Definition set_completionShown (b : bool) (p : Plugin) : Plugin :=
  {| lsp := lsp p; views := views p; conns := conns p;
     completionItems := completionItems p; completionShown := b;
     heap := heap p; trace := trace p |}.

Definition set_heap (h : gmap loc lsp.CompletionItem) (p : Plugin) : Plugin :=
  {| lsp := lsp p; views := views p; conns := conns p;
     completionItems := completionItems p; completionShown := completionShown p;
     heap := h; trace := trace p |}.

Definition emit (evs : list Event) (p : Plugin) : Plugin :=
  {| lsp := lsp p; views := views p; conns := conns p;
     completionItems := completionItems p; completionShown := completionShown p;
     heap := heap p; trace := trace p ++ evs |}.

(** Run a computation on the heap of items inside the plugin. *)
Definition onHeap {A} (m : M (gmap loc lsp.CompletionItem) A) : M Plugin A :=
  fun p => let '(o, h) := m (heap p) in (o, set_heap h p).

(** What [handle] returns: [0], or nil after a recovered panic. *)
Inductive Reply : Type :=
| RetInt (z : Z)
| RetNil.

(** Items freshly decoded from a backend response, each at a new location. *)
Fixpoint alloc (its : list lsp.CompletionItem) (h : gmap loc lsp.CompletionItem)
  : list loc * gmap loc lsp.CompletionItem :=
  match its with
  | [] => ([], h)
  | it :: rest =>
    let l := fresh (dom h) in
    let '(ls, h') := alloc rest (<[l := it]> h) in
    (l :: ls, h')
  end.

(** ** Test data *)

(** A classifier to run the code on: letters, digits, the underscore and
    every rune from 0x100 on are of class 2, blanks of class 0, the rest of
    class 1. *)
Definition sampleClass (r : rune) : Z :=
  if (r =? 32) || (r =? 9) || (r =? 0) then 0
  else if between 48 57 r || between 65 90 r || between 97 122 r
          || (r =? 95) || (0x100 <=? r) then 2
  else 1.

Definition oneLineView (line : string) : plugin.View :=
  {| plugin.ID := "v"; plugin.Path := "/a.go"; plugin.Syntax := "go";
     plugin.Rev := 1;
     plugin.Cache := {| plugin.Raw := line;
                        plugin.Lines := [Some {| plugin.Text := line |}] |} |}.

(** A matcher to run the code on: a pattern matches the texts it is a
    prefix of, the better the less text is left over. *)
Fixpoint isPrefix (word text : list rune) : bool :=
  match word, text with
  | [], _ => true
  | w :: word', t :: text' => (w =? t) && isPrefix word' text'
  | _ :: _, [] => false
  end.

Definition sampleScore (text word : list rune) : Z * list Z :=
  if isPrefix word text
  then (len text - len word, map Z.of_nat (seq 0 (length word)))
  else (-1, []).

Definition sampleItem (insertText : string) : lsp.CompletionItem :=
  {| lsp.InsertText := insertText; lsp.Score := 0; lsp.Matches := [] |}.

Definition sampleHeap : gmap loc lsp.CompletionItem :=
  list_to_map [(1%positive, sampleItem "food"); (2%positive, sampleItem "bar");
               (3%positive, sampleItem "foo")].

Definition goClient (sync : Z) : lsp.Client :=
  {| lsp.Language := "go"; lsp.TextDocumentSync := sync |}.

(** A backend that answers every query with three items, and one that
    fails every query. *)
Definition sampleCompletion (_ : list Event) (_ : lsp.Client)
    (_ : lsp.TextDocumentPositionParams) : option (list lsp.CompletionItem) :=
  Some [sampleItem "food"; sampleItem "bar"; sampleItem "foo"].

Definition failingCompletion (_ : list Event) (_ : lsp.Client)
    (_ : lsp.TextDocumentPositionParams) : option (list lsp.CompletionItem) :=
  None.

(** An update names its view and says whether it changes the text; the
    text model below then reports the insertion of "o" at column 2 of line
    0 and bumps the revision. *)
Definition SampleUpdate : Type := string * bool.

Definition sampleDelta (isChange : bool) : EditDelta :=
  {| startRow := 0; startCol := 2; endRow := 0; endCol := 2;
     text := if isChange then "o" else ""; deletedText := "";
     changed := isChange |}.

Definition sampleApply (view : plugin.View) (u : SampleUpdate)
  : plugin.View * EditDelta :=
  if snd u
  then ({| plugin.ID := plugin.ID view; plugin.Path := plugin.Path view;
           plugin.Syntax := plugin.Syntax view;
           plugin.Rev := plugin.Rev view + 1;
           plugin.Cache := {| plugin.Raw := "foo";
                              plugin.Lines := [Some {| plugin.Text := "foo" |}] |} |},
        sampleDelta true)
  else (view, sampleDelta false).

(** A plugin with one view of a Go file, one backend of the given
    synchronisation kind, one listener, and the given stored candidates. *)
Definition samplePlugin (sync : Z) (line : string) (items : list loc) : Plugin :=
  {| lsp := {[ "go"%string := goClient sync ]};
     views := {[ "v"%string := oneLineView line ]};
     conns := ["ui"%string];
     completionItems := items;
     completionShown := false;
     heap := sampleHeap;
     trace := [] |}.

(** The two bytes of the letter U+0434, and a line that ends with it. *)
Definition cyrillicDe : string :=
  String (ascii_of_nat 208) (String (ascii_of_nat 180) EmptyString).

Definition lineWithDe : string := String "a" cyrillicDe.

(** ** Data of the initialization arm *)

(** An entry of [Initialization.BufferInfo]: the path of the buffer and the
    identifiers of its views. *)
Module buffer.
Record Info : Type := { Path : string; Views : list string }.
End buffer.

(** The calls the initialization arm makes on a backend client. *)
Inductive InitCall : Type :=
(** [lsp.NewClient(syntax, p.handleNotification)] *)
| CallNewClient (syntax : string)
(** [lspClient.Initialize(dir)] *)
| CallInitialize (c : lsp.Client) (dir : string)
(** [lspClient.DidOpen(buf.Path, string(content))] *)
| CallDidOpen (c : lsp.Client) (path content : string).

(** The plugin together with its mutex [lspMutex] ([true]: held) and the
    history of the calls above. *)
Record InitState : Type := {
  plug : Plugin;
  lspMutex : bool;
  calls : list InitCall
}.

Definition onPlugin (f : Plugin -> Plugin) (s : InitState) : InitState :=
  {| plug := f (plug s); lspMutex := lspMutex s; calls := calls s |}.

Definition set_lspMutex (held : bool) (s : InitState) : InitState :=
  {| plug := plug s; lspMutex := held; calls := calls s |}.

Definition record (c : InitCall) (s : InitState) : InitState :=
  {| plug := plug s; lspMutex := lspMutex s; calls := calls s ++ [c] |}.

Definition set_lsp (m : gmap string lsp.Client) (p : Plugin) : Plugin :=
  {| lsp := m; views := views p; conns := conns p;
     completionItems := completionItems p; completionShown := completionShown p;
     heap := heap p; trace := trace p |}.

(** How one turn of the loop over the buffers ends: it goes on to the next
    buffer, it makes the handler return nil, or it waits for ever on the
    mutex. *)
Inductive Flow : Type :=
| Next
| ReturnNil
| Blocked.

(** [NewPlugin()]: empty registries, no candidates. *)
Definition NewPlugin : Plugin :=
  {| lsp := ∅; views := ∅; conns := [];
     completionItems := []; completionShown := false;
     heap := ∅; trace := [] |}.

(** [if strings.HasPrefix(syntax, ".") { syntax = string(syntax[1:]) }] *)
Definition trimDot (syntax : string) : string :=
  match syntax with
  | String "."%char rest => rest
  | _ => syntax
  end.

(** The view the arm creates for a buffer: no revision, an empty cache. *)
Definition newView (viewID path syntax : string) : plugin.View :=
  {| plugin.ID := viewID; plugin.Path := path; plugin.Syntax := syntax;
     plugin.Rev := 0;
     plugin.Cache := {| plugin.Raw := ""; plugin.Lines := [] |} |}.

(** The [DidOpen] calls of a history, as pairs of path and content, and
    the syntaxes of its [NewClient] calls. *)
Definition openedOf (cs : list InitCall) : list (string * string) :=
  flat_map (fun c => match c with
                     | CallDidOpen _ path content => [(path, content)]
                     | _ => []
                     end) cs.

Definition createdOf (cs : list InitCall) : list string :=
  flat_map (fun c => match c with
                     | CallNewClient syntax => [syntax]
                     | _ => []
                     end) cs.

(** Test data for the arm: the extension is what follows the last dot;
    there is a server for Go only; files are four bytes long. *)
Fixpoint afterLastDot (s : string) : option string :=
  match s with
  | EmptyString => None
  | String c rest =>
    match afterLastDot rest with
    | Some e => Some e
    | None => if Ascii.eqb c "."%char then Some rest else None
    end
  end.

Definition sampleExt (path : string) : string :=
  match afterLastDot path with
  | Some e => String "."%char e
  | None => ""
  end.

Definition sampleNewClient (_ : list InitCall) (syntax : string) : option lsp.Client :=
  if String.eqb syntax "go" then Some (goClient 0) else None.

Definition sampleInitialize (_ : list InitCall) (c : lsp.Client) (_ : string)
  : option lsp.Client :=
  Some {| lsp.Language := lsp.Language c; lsp.TextDocumentSync := 2 |}.

Definition sampleReadFile (path : string) : option string :=
  if String.eqb path "/missing.go" then None else Some "main".

Definition sampleSetRaw (view : plugin.View) (content : string) : plugin.View :=
  {| plugin.ID := plugin.ID view; plugin.Path := plugin.Path view;
     plugin.Syntax := plugin.Syntax view; plugin.Rev := plugin.Rev view;
     plugin.Cache := {| plugin.Raw := content;
                        plugin.Lines := [Some {| plugin.Text := content |}] |} |}.

Definition sampleDidOpen (_ : list InitCall) (_ : lsp.Client) (_ _ : string) : bool :=
  true.

Definition freshState : InitState :=
  {| plug := NewPlugin; lspMutex := false; calls := [] |}.

Definition goBuffer (path viewID : string) : buffer.Info :=
  {| buffer.Path := path; buffer.Views := [viewID] |}.

(** The heap of the three items after a ranking against "fo". *)
Definition matchedHeap : gmap loc lsp.CompletionItem :=
  list_to_map
    [(1%positive, {| lsp.InsertText := "food"; lsp.Score := 2; lsp.Matches := [0; 1] |});
     (2%positive, {| lsp.InsertText := "bar"; lsp.Score := 0; lsp.Matches := [] |});
     (3%positive, {| lsp.InsertText := "foo"; lsp.Score := 1; lsp.Matches := [0; 1] |})].

(** A plugin that holds a view of a Go file but no backend. *)
Definition noBackendPlugin : Plugin :=
  {| lsp := ∅;
     views := {[ "v"%string := oneLineView "fo" ]};
     conns := ["ui"%string];
     completionItems := [];
     completionShown := false;
     heap := ∅;
     trace := [] |}.

(** A plugin with a Go backend before any initialization call. *)
Definition goState : InitState :=
  {| plug := samplePlugin 2 "fo" []; lspMutex := false; calls := [] |}.

(** ** The engine *)

Section Engine.
Set Default Proof Using "Type".

(** [utils.UtfClass], of package utils: class 2 is the identifier class. *)
Variable UtfClass : rune -> Z.

(** [fuzzy.MatchScore], of package fuzzy: the score and the matched
    positions of a pattern in a text. *)
Variable MatchScore : list rune -> list rune -> Z * list Z.

(** [plugin.Update] and the text model's [ApplyUpdate], which changes the
    view in place and reports the edit. *)
Variable Update : Type.
Variable ViewID : Update -> string.
Variable ApplyUpdate : plugin.View -> Update -> plugin.View * EditDelta.

(** The backend's answer to a completion query, given all that was
    exchanged before: the items, or [None] for an error. *)
Variable Completion :
  list Event -> lsp.Client -> lsp.TextDocumentPositionParams ->
  option (list lsp.CompletionItem).

(** *** getWord *)

(** The loop [for i := col; i >= 0; i--] of [getWord], with [n = i + 1]
    counting the indices still to visit: at [n = 0] the guard [i >= 0]
    fails and the function returns [0, word]. *)
Fixpoint getWord_loop (rs : list rune) (n : nat) (word : list rune)
  : Outcome (Z * list rune) :=
  match n with
  | O => Ok (0, word)
  | S n' =>
    let i := Z.of_nat n' in
    r ← index rs i;
    if negb (UtfClass r =? 2) then Ok (i + 1, word)
    else getWord_loop rs n' (r :: word)
  end.

Definition getWord (view : plugin.View) (row col : Z) : Outcome (Z * list rune) :=
  entry ← index (plugin.Lines (plugin.Cache view)) row;
  match entry with
  | None => Panic
  | Some line => getWord_loop (runes (plugin.Text line)) (Z.to_nat (col + 1)) []
  end.

(** *** matchCompletionItems *)

Definition deref (item : loc) : M (gmap loc lsp.CompletionItem) lsp.CompletionItem :=
  fun h => match h !! item with
           | Some it => (Ok it, h)
           | None => (Panic, h)
           end.

(** A write to a field of [*item]. *)
Definition assign (item : loc) (f : lsp.CompletionItem -> lsp.CompletionItem)
  : M (gmap loc lsp.CompletionItem) unit :=
  it ← deref item; modify (<[item := f it]>).

Definition with_Score (score : Z) (it : lsp.CompletionItem) : lsp.CompletionItem :=
  {| lsp.InsertText := lsp.InsertText it; lsp.Score := score;
     lsp.Matches := lsp.Matches it |}.

Definition with_Matches (matches : list Z) (it : lsp.CompletionItem) : lsp.CompletionItem :=
  {| lsp.InsertText := lsp.InsertText it; lsp.Score := lsp.Score it;
     lsp.Matches := matches |}.

(** The branch [len(word) == 0]: the loop that empties [Matches]. *)
Fixpoint clearMatches (items : list loc) : M (gmap loc lsp.CompletionItem) unit :=
  match items with
  | [] => mret tt
  | item :: rest =>
    it ← deref item;
    _ ← (if 0 <? len (lsp.Matches it) then assign item (with_Matches [])
         else mret tt);
    clearMatches rest
  end.

(** The inner loop [for i = 0; i < len(matchItems); i++]: [rest] is
    [matchItems[i:]], the result is [i] on leaving the loop. *)
Fixpoint scan (score : Z) (rest : list loc) (i : nat)
  : M (gmap loc lsp.CompletionItem) nat :=
  match rest with
  | [] => mret i
  | matchItem :: rest' =>
    it ← deref matchItem;
    if score <? lsp.Score it then mret i
    else scan score rest' (S i)
  end.

(** [append(matchItems, nil); copy(matchItems[i+1:], matchItems[i:]);
    matchItems[i] = item] *)
Definition insertAt (i : nat) (item : loc) (matchItems : list loc) : list loc :=
  take i matchItems ++ item :: drop i matchItems.

(** The outer loop [for _, item := range items]. *)
Fixpoint rank (word : list rune) (items matchItems : list loc)
  : M (gmap loc lsp.CompletionItem) (list loc) :=
  match items with
  | [] => mret matchItems
  | item :: rest =>
    it ← deref item;
    let '(score, matches) := MatchScore (runes (lsp.InsertText it)) word in
    if -1 <? score then
      i ← scan score matchItems 0;
      _ ← assign item (with_Score score);
      _ ← assign item (with_Matches matches);
      rank word rest (insertAt i item matchItems)
    else rank word rest matchItems
  end.

Definition matchCompletionItems (items : list loc) (word : list rune)
  : M (gmap loc lsp.CompletionItem) (list loc) :=
  if len word =? 0 then
    _ ← clearMatches items; mret items
  else rank word items [].

(** *** notifyCompletion, notifyCompletionPos *)

Definition notifyCompletion (items : list loc) : M Plugin unit :=
  _ ← modify (set_completionShown (0 <? len items));
  p ← get;
  let payload := map (fun item => heap p !! item) items in
  modify (emit (map (fun conn => NotifyCompletion conn payload) (conns p))).

Definition notifyCompletionPos (pos : lsp.Position) : M Plugin unit :=
  p ← get;
  modify (emit (map (fun conn => NotifyCompletionPos conn pos) (conns p))).

(** *** getCompletionItems *)

(** [lspClient.Completion(params)]: the call is recorded with its answer and
    the items of the answer are allocated. *)
Definition callCompletion (lspClient : lsp.Client)
    (params : lsp.TextDocumentPositionParams) : M Plugin (option (list loc)) :=
  p ← get;
  let reply := Completion (trace p) lspClient params in
  _ ← modify (emit [CompletionQuery lspClient params reply]);
  match reply with
  | None => mret None
  | Some its =>
    let '(ls, h) := alloc its (heap p) in
    _ ← modify (set_heap h); mret (Some ls)
  end.

(** The parameters of a query on the document of [view] at a position. *)
Definition paramsAt (view : plugin.View) (pos : lsp.Position)
  : lsp.TextDocumentPositionParams :=
  {| lsp.DocURI := "file://" ++ plugin.Path view; lsp.Position_ := pos |}.

(** Lines 281 to 297: the query at the anchor and what follows it. *)
Definition queryAt (lspClient : lsp.Client) (view : plugin.View)
    (startRow startCol : Z) (word : list rune) : M Plugin (list loc) :=
  let pos := {| lsp.Line := startRow; lsp.Character := startCol |} in
  let params := paramsAt view pos in
  resp ← callCompletion lspClient params;
  match resp with
  | None => mret []
  | Some items =>
    _ ← notifyCompletionPos pos;
    _ ← modify (set_completionItems items);
    p ← get;
    onHeap (matchCompletionItems (completionItems p) word)
  end.

Definition getCompletionItems (lspClient : lsp.Client) (view : plugin.View)
    (text : string) (startRow startCol : Z) : M Plugin (list loc) :=
  p ← get;
  if 0 <? len (completionItems p) then
    let startCol := if String.eqb text "" then int_wrap (startCol - 1) else startCol in
    '(_, word) ← liftO (getWord view startRow startCol);
    onHeap (matchCompletionItems (completionItems p) word)
  else if Z.of_nat (String.length text) =? 1 then
    if String.eqb text "." then
      queryAt lspClient view startRow (int_wrap (startCol + 1)) []
    else
      r ← liftO (index (runes text) 0);
      if UtfClass r =? 2 then
        '(startCol, word) ← liftO (getWord view startRow startCol);
        queryAt lspClient view startRow startCol word
      else queryAt lspClient view startRow startCol []
  else if String.eqb text "" then mret (completionItems p)
  else queryAt lspClient view startRow startCol [].

(** *** complete *)

(** The two loops that set [reset] and break at the first rune that is not
    of the identifier class. *)
Definition anyNotIdentifier (rs : list rune) : bool :=
  existsb (fun r => negb (UtfClass r =? 2)) rs.

Definition complete (lspClient : lsp.Client) (view : plugin.View)
    (text deletedText : string) (startRow startCol : Z) : M Plugin unit :=
  let rs := runes text in
  let deletedRunes := runes deletedText in
  let reset := 1 <? len rs in
  let reset := if negb reset then anyNotIdentifier rs else reset in
  let reset := if negb reset then anyNotIdentifier deletedRunes else reset in
  p ← get;
  _ ← (if reset && (0 <? len (completionItems p))
       then modify (set_completionItems []) else mret tt);
  if 1 <? len rs then
    p ← get; notifyCompletion (completionItems p)
  else
    stop ← (if 0 <? len rs then
              lastRune ← liftO (index rs (len rs - 1));
              mret (negb (lastRune =? 46) && negb (UtfClass lastRune =? 2))
            else mret false);
    if (stop : bool) then
      p ← get; notifyCompletion (completionItems p)
    else
      items ← getCompletionItems lspClient view text startRow startCol;
      notifyCompletion items.

(** *** handle *)

(** The requests [handle] switches on. The arm of [*plugin.Initialization]
    (opening buffers and starting backends) is embedded on its own, as
    [handleInitialization]; [OtherRequest] is a request of any other type. *)
Inductive Request : Type :=
| UpdateRequest (r : Update)
| OtherRequest.

Definition lookupOrPanic {A} (o : option A) : M Plugin A :=
  match o with
  | Some a => mret a
  | None => liftO Panic
  end.

(** The arm [case *plugin.Update]. A view or a client missing from its map
    is a nil pointer, and the first use of it panics. *)
Definition handleUpdate (r : Update) : M Plugin Z :=
  p ← get;
  view ← lookupOrPanic (views p !! ViewID r);
  let '(view, d) := ApplyUpdate view r in
  _ ← modify (set_views (<[ViewID r := view]> (views p)));
  if negb (changed d) then mret 0
  else
    let ver := int_wrap (plugin.Rev view) in
    let document := {| lsp.URI := "file://" ++ plugin.Path view;
                       lsp.Version := ver |} in
    let ranged := {| lsp.Range_ :=
                       Some {| lsp.Start := {| lsp.Line := startRow d;
                                               lsp.Character := startCol d |};
                               lsp.End_ := {| lsp.Line := endRow d;
                                              lsp.Character := endCol d |} |};
                     lsp.Text := text d |} in
    lspClient ← lookupOrPanic (lsp p !! plugin.Syntax view);
    let change :=
      if lsp.TextDocumentSync lspClient =? 1
      then {| lsp.Range_ := None; lsp.Text := plugin.Raw (plugin.Cache view) |}
      else ranged in
    let didChange := {| lsp.TextDocument := document;
                        lsp.ContentChanges := [change] |} in
    _ ← modify (emit [DidChange lspClient didChange]);
    _ ← complete lspClient view (text d) (deletedText d) (startRow d) (startCol d);
    mret 0.

(** [handle], with its deferred [recover]: a panic ends the call with nil. *)
Definition handle (req : Request) (p : Plugin) : Reply * Plugin :=
  match req with
  | UpdateRequest r =>
    match handleUpdate r p with
    | (Ok z, p') => (RetInt z, p')
    | (Panic, p') => (RetNil, p')
    end
  | OtherRequest => (RetInt 0, p)
  end.


(** *** The ranking as the specification words it *)

(** The floor of the matcher: a score below it means no match. *)
Definition matchFloor : Z := 0.

(** The score the matcher gives the candidate at [item] against [word]. *)
Definition matchScoreOf (h : gmap loc lsp.CompletionItem) (word : list rune)
    (item : loc) : Z :=
  match h !! item with
  | Some it => fst (MatchScore (runes (lsp.InsertText it)) word)
  | None => -1
  end.

(** The score field of the candidate at [item]. *)
Definition storedScore (h : gmap loc lsp.CompletionItem) (item : loc) : Z :=
  match h !! item with
  | Some it => lsp.Score it
  | None => 0
  end.

(** Walk the result from the front, skip while the entry's score is at most
    the new score, insert before the first entry with a greater score. *)
Fixpoint spec_insert (score : loc -> Z) (new : loc) (result : list loc) : list loc :=
  match result with
  | [] => [new]
  | entry :: rest =>
    if score entry <=? score new then entry :: spec_insert score new rest
    else new :: entry :: rest
  end.

(** Drop the candidates below the floor, insert the others one by one. *)
Definition spec_rank (score : loc -> Z) (items : list loc) : list loc :=
  fold_left (fun result c => spec_insert score c result)
    (List.filter (fun c => matchFloor <=? score c) items) [].

(** *** Predicates on the heap of items *)

(** The item at [item] carries the score and the positions the matcher
    gives it for [word]. *)
Definition ranked (word : list rune) (h : gmap loc lsp.CompletionItem)
    (item : loc) : Prop :=
  exists it, h !! item = Some it /\
    MatchScore (runes (lsp.InsertText it)) word = (lsp.Score it, lsp.Matches it).

(** [score] is the matcher's score of every item the heap holds. *)
Definition scores (word : list rune) (h : gmap loc lsp.CompletionItem)
    (score : loc -> Z) : Prop :=
  forall item it, h !! item = Some it ->
    fst (MatchScore (runes (lsp.InsertText it)) word) = score item.

(** The item at [item] has no matched positions. *)
Definition cleared (h : gmap loc lsp.CompletionItem) (item : loc) : Prop :=
  exists it, h !! item = Some it /\ lsp.Matches it = [].

Definition byScore (score : loc -> Z) (a b : loc) : Prop := score a <= score b.

(** *** What is observed of a run *)

(** The plugin after a reset that is re-emitted: no candidates, nothing
    shown, the empty list sent to every listener. *)
Definition afterReset (p : Plugin) : Plugin :=
  emit (map (fun conn => NotifyCompletion conn []) (conns p))
    (set_completionShown false (set_completionItems [] p)).

Definition isDidChange (e : Event) : bool :=
  match e with
  | DidChange _ _ => true
  | _ => false
  end.

Definition isQuery (e : Event) : bool :=
  match e with
  | CompletionQuery _ _ _ => true
  | _ => false
  end.

Definition notDidChange (e : Event) : Prop := isDidChange e = false.

(** Every run of [m] appends events to the trace, all of them in [P]. *)
Definition emits {A} (P : Event -> Prop) (m : M Plugin A) : Prop :=
  forall p, exists evs, trace (snd (m p)) = trace p ++ evs /\ Forall P evs.

(** *** Further predicates *)

(** The pointer [item] points to an item of the heap. *)
Definition allocated (h : gmap loc lsp.CompletionItem) (item : loc) : Prop :=
  is_Some (h !! item).

(** Two heaps hold the same items up to the fields a ranking pass writes:
    every pointer has the same [InsertText] in both, or is nil in both. *)
Definition sameTexts (h h' : gmap loc lsp.CompletionItem) : Prop :=
  forall item, lsp.InsertText <$> (h' !! item) = lsp.InsertText <$> (h !! item).


(** Every run of [m] appends at most [n] events of the kind [kind]. *)
Definition sendsAtMost {A} (kind : Event -> bool) (n : nat) (m : M Plugin A) : Prop :=
  forall p, exists evs,
    trace (snd (m p)) = trace p ++ evs /\
    (length (List.filter kind evs) <= n)%nat.

(** Every run of [m] leaves the registries of backends, listeners and
    views as they are. *)
Definition keepsRegistries {A} (m : M Plugin A) : Prop :=
  forall p, lsp (snd (m p)) = lsp p /\
            conns (snd (m p)) = conns p /\
            views (snd (m p)) = views p.

(** *** The arm of [*plugin.Initialization] *)

(** [filepath.Ext], of the Go library. *)
Variable Ext : string -> string.

(** [lsp.NewClient], [os.Getwd], [lspClient.Initialize] (which records the
    capabilities the server declares in the client), [ioutil.ReadFile], the
    text model's [SetRaw] and [lspClient.DidOpen] ([true]: no error). The
    calls on a backend may depend on the calls made before. *)
Variable NewClient : list InitCall -> string -> option lsp.Client.
Variable Getwd : option string.
Variable Initialize : list InitCall -> lsp.Client -> string -> option lsp.Client.
Variable ReadFile : string -> option string.
Variable SetRaw : plugin.View -> string -> plugin.View.
Variable DidOpen : list InitCall -> lsp.Client -> string -> string -> bool.

(** Lines 98 to 118, between [Lock] and [Unlock]: the client of the syntax,
    looked up or created; [None] when the arm returns nil. *)
Definition getClient (syntax : string) : M InitState (option lsp.Client) :=
  s ← get;
  match lsp (plug s) !! syntax with
  | Some lspClient => mret (Some lspClient)
  | None =>
    let created := NewClient (calls s) syntax in
    _ ← modify (record (CallNewClient syntax));
    match created with
    | None => mret None
    | Some lspClient =>
      match Getwd with
      | None => mret None
      | Some dir =>
        s ← get;
        let initialized := Initialize (calls s) lspClient dir in
        _ ← modify (record (CallInitialize lspClient dir));
        match initialized with
        | None => mret None
        | Some lspClient =>
          _ ← modify (onPlugin (fun p => set_lsp (<[syntax := lspClient]> (lsp p)) p));
          mret (Some lspClient)
        end
      end
    end
  end.

(** One turn of the loop [for _, buf := range r.BufferInfo]. *)
Definition initBuffer (buf : buffer.Info) : M InitState Flow :=
  let syntax := trimDot (Ext (buffer.Path buf)) in
  viewID ← liftO (index (buffer.Views buf) 0);
  let view := newView viewID (buffer.Path buf) syntax in
  _ ← modify (onPlugin (fun p => set_views (<[viewID := view]> (views p)) p));
  s ← get;
  if lspMutex s then mret Blocked
  else
    _ ← modify (set_lspMutex true);
    found ← getClient syntax;
    match found with
    | None => mret ReturnNil
    | Some lspClient =>
      _ ← modify (set_lspMutex false);
      match ReadFile (buffer.Path buf) with
      | None => mret ReturnNil
      | Some content =>
        _ ← modify (onPlugin (fun p =>
               set_views (<[viewID := SetRaw view content]> (views p)) p));
        s ← get;
        let opened := DidOpen (calls s) lspClient (buffer.Path buf) content in
        _ ← modify (record (CallDidOpen lspClient (buffer.Path buf) content));
        if opened then mret Next else mret ReturnNil
      end
    end.

Fixpoint initBuffers (bufs : list buffer.Info) : M InitState Flow :=
  match bufs with
  | [] => mret Next
  | buf :: rest =>
    flow ← initBuffer buf;
    match flow with
    | Next => initBuffers rest
    | _ => mret flow
    end
  end.

(** The arm [case *plugin.Initialization] of [handle], with the deferred
    [recover]: the reply, or [None] when the call never returns because it
    waits on a mutex that nobody will release. *)
Definition handleInitialization (bufs : list buffer.Info) (s : InitState)
  : option Reply * InitState :=
  match initBuffers bufs s with
  | (Ok Next, s') => (Some (RetInt 0), s')
  | (Ok ReturnNil, s') => (Some RetNil, s')
  | (Ok Blocked, s') => (None, s')
  | (Panic, s') => (Some RetNil, s')
  end.

(** No backend can be brought up for [syntax] from the state [s]: creating
    the client, finding the working directory or the handshake fails. *)
Definition backendUnavailable (s : InitState) (syntax : string) : Prop :=
  match NewClient (calls s) syntax with
  | None => True
  | Some lspClient =>
    match Getwd with
    | None => True
    | Some dir =>
      Initialize (calls s ++ [CallNewClient syntax]) lspClient dir = None
    end
  end.

(** From [s] to [s']: backends and views are only added (a view may be
    replaced by a newer one under its identifier), calls are only appended,
    and the listeners and the completion session are as they were. *)
Definition grows (s s' : InitState) : Prop :=
  (forall syntax c, lsp (plug s) !! syntax = Some c ->
                    lsp (plug s') !! syntax = Some c) /\
  (forall id, is_Some (views (plug s) !! id) -> is_Some (views (plug s') !! id)) /\
  conns (plug s') = conns (plug s) /\
  completionItems (plug s') = completionItems (plug s) /\
  completionShown (plug s') = completionShown (plug s) /\
  heap (plug s') = heap (plug s) /\
  trace (plug s') = trace (plug s) /\
  exists new, calls s' = calls s ++ new.

(** What one turn of the loop over the buffers did, from [s] to [s'] with
    the calls [new], when it ended with [o]. *)
Definition turnOf (buf : buffer.Info) (s s' : InitState) (new : list InitCall)
    (o : Outcome Flow) : Prop :=
  let syntax := trimDot (Ext (buffer.Path buf)) in
  calls s' = calls s ++ new /\
  (createdOf new = [] \/
   (createdOf new = [syntax] /\ lsp (plug s) !! syntax = None)) /\
  (o = Ok Next ->
   lspMutex s' = false /\
   is_Some (lsp (plug s') !! syntax) /\
   exists viewID content,
     buffer.Views buf !! 0%nat = Some viewID /\
     ReadFile (buffer.Path buf) = Some content /\
     openedOf new = [(buffer.Path buf, content)] /\
     is_Some (views (plug s') !! viewID)).

(** ** Properties *)

(** *** The word scan *)

Lemma index_Ok {A} (s : list A) (i : nat) (a : A) :
  s !! i = Some a -> index s (Z.of_nat i) = Ok a.
Proof.
  intros H. unfold index.
  destruct (Z.ltb_spec (Z.of_nat i) 0); [lia|].
  by rewrite Nat2Z.id, H.
Qed.

Lemma index_Ok_inv {A} (s : list A) (i : Z) (a : A) :
  index s i = Ok a -> 0 <= i /\ s !! Z.to_nat i = Some a.
Proof.
  unfold index. destruct (Z.ltb_spec i 0); [discriminate|].
  destruct (s !! Z.to_nat i) eqn:E; [|discriminate].
  intros [= ->]. split; [lia|done].
Qed.

Lemma index_Panic_ge {A} (s : list A) (i : Z) :
  len s <= i -> index s i = Panic.
Proof.
  intros H. unfold index, len in *.
  destruct (Z.ltb_spec i 0); [done|].
  rewrite (lookup_ge_None_2 s (Z.to_nat i)); [done|lia].
Qed.


(** The characters from index [b] up to, not including, index [n]. *)
Lemma slice_snoc {A} (s : list A) (b n : nat) (a : A) :
  (b <= n)%nat -> s !! n = Some a ->
  drop b (take (S n) s) = drop b (take n s) ++ [a].
Proof.
  intros Hb Ha.
  rewrite (take_S_r s n a Ha).
  rewrite drop_app_le; [done|].
  rewrite length_take. apply lookup_lt_Some in Ha. lia.
Qed.

Lemma getWord_loop_scan (rs : list rune) (n : nat) (word : list rune) :
  (n <= length rs)%nat ->
  exists b : nat,
    (b <= n)%nat /\
    getWord_loop rs n word = Ok (Z.of_nat b, drop b (take n rs) ++ word) /\
    Forall (fun r => UtfClass r = 2) (drop b (take n rs)) /\
    (b = 0%nat \/
     exists b' r, b = S b' /\ rs !! b' = Some r /\ UtfClass r <> 2).
Proof.
  revert word. induction n as [|n IH]; intros word Hn.
  - exists 0%nat. simpl. repeat split; auto.
  - destruct (lookup_lt_is_Some_2 rs n) as [r Hr]; [lia|].
    simpl. rewrite (index_Ok _ _ _ Hr). simpl.
    destruct (Z.eqb_spec (UtfClass r) 2) as [Hc|Hc]; simpl.
    + destruct (IH (r :: word)) as (b & Hb & Heq & Hall & Hstop); [lia|].
      exists b. split; [lia|]. rewrite Heq.
      rewrite (slice_snoc rs b n r Hb Hr).
      split; [by rewrite <- app_assoc|].
      split; [|done].
      apply Forall_app. split; [done|]. by constructor.
    + exists (S n). split; [lia|].
      rewrite drop_ge by (rewrite length_take; lia).
      split; [f_equal; f_equal; lia|].
      split; [constructor|].
      right. by exists n, r.
Qed.

Lemma getWord_loop_Panic (rs : list rune) (n : nat) (word : list rune) :
  (length rs < n)%nat -> getWord_loop rs n word = Panic.
Proof.
  destruct n as [|n]; [lia|]. intros H. simpl.
  rewrite index_Panic_ge; [done|]. unfold len. lia.
Qed.

(** C6 (as amended). On an existing line and a column below the number of
    runes, the scan returns a boundary and a prefix such that: the prefix is
    the run of characters of the line from the boundary to the column, in
    the order of the line; all of them are identifier characters; and the
    boundary is either 0 (the index went below 0) or one more than the
    index of a character that is not an identifier character, the first one
    met going backward. In particular, when the letters are identifier
    characters and the dot is not, the line "foo.bar" scanned from column 6
    (the index of its last character, one left of a cursor at column 7)
    gives the prefix "bar" and the boundary 4. *)
Theorem getWord_scan :
  (forall (view : plugin.View) (row col : Z) (line : plugin.Line),
      index (plugin.Lines (plugin.Cache view)) row = Ok (Some line) ->
      col < len (runes (plugin.Text line)) ->
      exists (boundary : Z) (word : list rune),
        getWord view row col = Ok (boundary, word) /\
        0 <= boundary /\ boundary <= Z.max 0 (col + 1) /\
        word = drop (Z.to_nat boundary)
                 (take (Z.to_nat (col + 1)) (runes (plugin.Text line))) /\
        Forall (fun r => UtfClass r = 2) word /\
        (boundary = 0 \/
         exists r, index (runes (plugin.Text line)) (boundary - 1) = Ok r /\
                   UtfClass r <> 2)) /\
  ((forall r, In r (ascii_runes "foobar") -> UtfClass r = 2) ->
   UtfClass 46 <> 2 ->
   getWord (oneLineView "foo.bar") 0 6 = Ok (4, ascii_runes "bar")).
Proof.
  split.
  - intros view row col line Hrow Hcol. unfold getWord. rewrite Hrow. simpl.
    destruct (getWord_loop_scan (runes (plugin.Text line)) (Z.to_nat (col + 1)) [])
      as (b & Hb & Heq & Hall & Hstop).
    { unfold len in Hcol. lia. }
    exists (Z.of_nat b), (drop b (take (Z.to_nat (col + 1)) (runes (plugin.Text line)))).
    rewrite Heq, app_nil_r, Nat2Z.id.
    repeat split; auto; try lia.
    destruct Hstop as [->|(b' & r & -> & Hr & Hc)]; [by left|].
    right. exists r. split; [|done].
    replace (Z.of_nat (S b') - 1) with (Z.of_nat b') by lia.
    by apply index_Ok.
  - intros Hid Hdot.
    change (getWord_loop [102; 111; 111; 46; 98; 97; 114] 7 [] = Ok (4, [98; 97; 114])).
    unfold getWord_loop, index. simpl.
    rewrite (Hid 114), (Hid 97), (Hid 98) by (vm_compute; tauto). simpl.
    destruct (Z.eqb_spec (UtfClass 46) 2); [done|]. reflexivity.
Qed.

(** C10 (as amended). On an existing line the scan returns exactly when the
    column is below the number of runes of the line: it makes no access
    below index 0 (one would panic), for a negative column it makes no
    access at all and returns boundary 0 with the empty prefix, and for a
    column at or beyond the number of runes the first access, at the
    column itself, is out of range. *)
Theorem getWord_total_iff (view : plugin.View) (row col : Z) (line : plugin.Line) :
  index (plugin.Lines (plugin.Cache view)) row = Ok (Some line) ->
  (getWord view row col <> Panic <-> col < len (runes (plugin.Text line))) /\
  (col < 0 -> getWord view row col = Ok (0, [])) /\
  (len (runes (plugin.Text line)) <= col ->
   index (runes (plugin.Text line)) col = Panic /\ getWord view row col = Panic).
Proof.
  intros Hrow.
  assert (Hge : len (runes (plugin.Text line)) <= col -> getWord view row col = Panic).
  { intros H. unfold getWord. rewrite Hrow. simpl.
    apply getWord_loop_Panic. unfold len in H. lia. }
  split; [split|split].
  - intros Hok. destruct (Z.lt_ge_cases col (len (runes (plugin.Text line)))); [done|].
    by destruct Hok; apply Hge.
  - intros Hlt. unfold getWord. rewrite Hrow. simpl.
    destruct (getWord_loop_scan (runes (plugin.Text line)) (Z.to_nat (col + 1)) [])
      as (b & _ & Heq & _); [unfold len in Hlt; lia|].
    by rewrite Heq.
  - intros Hneg. unfold getWord. rewrite Hrow. simpl.
    by replace (Z.to_nat (col + 1)) with 0%nat by lia.
  - intros H. split; [by apply index_Panic_ge|by apply Hge].
Qed.

(** *** The ranking pass *)

Lemma deref_Some (h : gmap loc lsp.CompletionItem) item it :
  h !! item = Some it -> deref item h = (Ok it, h).
Proof. intros H. unfold deref. by rewrite H. Qed.

Lemma deref_Ok_inv (h h' : gmap loc lsp.CompletionItem) item it :
  deref item h = (Ok it, h') -> h !! item = Some it /\ h' = h.
Proof. unfold deref. destruct (h !! item); intros [= -> ->]; auto. Qed.

Lemma assign_Some (h : gmap loc lsp.CompletionItem) item it f :
  h !! item = Some it -> assign item f h = (Ok tt, <[item := f it]> h).
Proof.
  intros H. unfold assign, mbind, M_bind. by rewrite (deref_Some _ _ _ H).
Qed.

Lemma spec_insert_In (score : loc -> Z) new result x :
  In x (spec_insert score new result) <-> x = new \/ In x result.
Proof.
  induction result as [|e rest IH]; simpl.
  - split; intros [->|[]]; by left.
  - destruct (score e <=? score new); simpl.
    + rewrite IH. split.
      * intros [->|[->|H]]; [right; by left|by left|right; by right].
      * intros [->|[->|H]]; [right; by left|by left|right; by right].
    + split.
      * intros [->|[->|H]]; [by left|right; by left|right; by right].
      * intros [->|[->|H]]; [by left|right; by left|right; by right].
Qed.

Lemma spec_insert_sorted (score : loc -> Z) new result :
  StronglySorted (byScore score) result ->
  StronglySorted (byScore score) (spec_insert score new result).
Proof.
  induction 1 as [|e rest Hs IH Hall]; simpl.
  - repeat constructor.
  - destruct (Z.leb_spec (score e) (score new)).
    + constructor; [done|].
      apply List.Forall_forall. intros x Hx. apply spec_insert_In in Hx as [->|Hx].
      * done.
      * by eapply List.Forall_forall in Hall.
    + constructor; [by constructor|].
      constructor; [unfold byScore; lia|].
      eapply List.Forall_impl; [|exact Hall]. unfold byScore. simpl. intros; lia.
Qed.

Lemma fold_spec_insert_In (score : loc -> Z) items acc x :
  In x (fold_left (fun result c => spec_insert score c result) items acc) <->
  In x acc \/ In x items.
Proof.
  revert acc. induction items as [|c items IH]; intros acc; simpl.
  - split; [by left|by intros [H|[]]].
  - rewrite IH, spec_insert_In. split.
    + intros [[->|H]|H]; [right; by left|by left|right; by right].
    + intros [H|[->|H]]; [left; by right|left; by left|by right].
Qed.

Lemma fold_spec_insert_sorted (score : loc -> Z) items acc :
  StronglySorted (byScore score) acc ->
  StronglySorted (byScore score)
    (fold_left (fun result c => spec_insert score c result) items acc).
Proof.
  revert acc. induction items as [|c items IH]; intros acc H; simpl; [done|].
  by apply IH, spec_insert_sorted.
Qed.

Lemma sorted_map_score (score : loc -> Z) (l : list loc) :
  StronglySorted (byScore score) l -> Sorted Z.le (map score l).
Proof.
  intros H. apply StronglySorted_Sorted.
  induction H as [|a l Hs IH Hall]; simpl; constructor; [done|].
  apply List.Forall_forall. intros z Hz. apply in_map_iff in Hz as (b & <- & Hb).
  by eapply List.Forall_forall in Hall.
Qed.

Lemma sorted_before (score : loc -> Z) (l1 l2 : list loc) x :
  StronglySorted (byScore score) (l1 ++ x :: l2) ->
  Forall (fun e => score e <= score x) l1.
Proof.
  induction l1 as [|a l1 IH]; simpl; intros H; [constructor|].
  apply StronglySorted_inv in H as [Hs Hall]. constructor; [|by apply IH].
  eapply List.Forall_forall in Hall; [exact Hall|]. apply in_or_app. right. by left.
Qed.

(** The inner loop finds the place [spec_insert] inserts at. *)
Lemma scan_insert (score : loc -> Z) (h : gmap loc lsp.CompletionItem)
    (new : loc) (matchItems : list loc) (i : nat) :
  Forall (fun e => exists it, h !! e = Some it /\ lsp.Score it = score e) matchItems ->
  exists j, scan (score new) matchItems i h = (Ok (i + j)%nat, h) /\
            insertAt j new matchItems = spec_insert score new matchItems.
Proof.
  revert i. induction matchItems as [|e rest IH]; intros i Hall.
  - exists 0%nat. simpl. split; [by rewrite Nat.add_0_r|done].
  - apply Forall_cons in Hall as [(it & He & Hsc) Hall].
    simpl. unfold mbind, M_bind. rewrite (deref_Some _ _ _ He), Hsc.
    destruct (Z.ltb_spec (score new) (score e)).
    + exists 0%nat. split; [by rewrite Nat.add_0_r|].
      destruct (Z.leb_spec (score e) (score new)); [lia|done].
    + destruct (IH (S i) Hall) as (j & Hscan & Hins).
      exists (S j). split; [by rewrite Hscan, Nat.add_succ_r|].
      destruct (Z.leb_spec (score e) (score new)); [|lia].
      unfold insertAt in *. simpl. by rewrite Hins.
Qed.

(** On entries that are all at most the score the inner loop runs to the end. *)
Lemma scan_to_end (h : gmap loc lsp.CompletionItem) (s : Z)
    (matchItems : list loc) (i : nat) :
  Forall (fun e => exists it, h !! e = Some it /\ lsp.Score it <= s) matchItems ->
  scan s matchItems i h = (Ok (i + length matchItems)%nat, h).
Proof.
  revert i. induction matchItems as [|e rest IH]; intros i Hall; simpl.
  - by rewrite Nat.add_0_r.
  - apply Forall_cons in Hall as [(it & He & Hsc) Hall].
    unfold mbind, M_bind. rewrite (deref_Some _ _ _ He).
    destruct (Z.ltb_spec s (lsp.Score it)); [lia|].
    by rewrite (IH (S i) Hall), Nat.add_succ_r.
Qed.

Lemma ranked_score (word : list rune) (score : loc -> Z)
    (h : gmap loc lsp.CompletionItem) (l : list loc) :
  scores word h score -> Forall (ranked word h) l ->
  Forall (fun e => exists it, h !! e = Some it /\ lsp.Score it = score e) l.
Proof.
  intros Hsc Hall. eapply List.Forall_impl; [|exact Hall].
  intros e (it & He & Hm). exists it. split; [done|].
  rewrite <- (Hsc _ _ He). by rewrite Hm.
Qed.

(** One turn of the outer loop on an item that matches: the heap after the
    two writes, and the result with the item inserted. *)
Lemma rank_step (word : list rune) (score : loc -> Z)
    (h : gmap loc lsp.CompletionItem) item it sc ms rest acc :
  h !! item = Some it ->
  MatchScore (runes (lsp.InsertText it)) word = (sc, ms) ->
  -1 < sc ->
  scores word h score -> Forall (ranked word h) acc ->
  exists h2,
    rank word (item :: rest) acc h = rank word rest (spec_insert score item acc) h2 /\
    scores word h2 score /\
    Forall (ranked word h2) (spec_insert score item acc) /\
    (forall l, is_Some (h !! l) -> is_Some (h2 !! l)).
Proof.
  intros Hit Hm Hpos Hsc Hacc.
  assert (Hkey : sc = score item) by (rewrite <- (Hsc _ _ Hit); by rewrite Hm).
  destruct (scan_insert score h item acc 0 (ranked_score _ _ _ _ Hsc Hacc))
    as (j & Hscan & Hins).
  set (it1 := with_Score sc it).
  set (h1 := <[item := it1]> h).
  set (h2 := <[item := with_Matches ms it1]> h1).
  assert (Hlook : forall l, l <> item -> h2 !! l = h !! l).
  { intros l Hl. unfold h2, h1. by rewrite !lookup_insert_ne. }
  assert (Hnew : h2 !! item = Some (with_Matches ms it1)).
  { unfold h2. by rewrite lookup_insert_eq. }
  exists h2. split; [|split; [|split]].
  - simpl. unfold mbind, M_bind.
    rewrite (deref_Some _ _ _ Hit), Hm.
    destruct (Z.ltb_spec (-1) sc); [|lia].
    rewrite Hkey, Hscan. rewrite <- Hkey.
    rewrite (assign_Some h item it _ Hit). fold it1 h1.
    rewrite (assign_Some h1 item it1); [|by unfold h1; rewrite lookup_insert_eq].
    fold h2. simpl. by rewrite Hins.
  - intros l it' Hl. destruct (decide (l = item)) as [->|Hne].
    + rewrite Hnew in Hl. injection Hl as <-. simpl. by apply Hsc.
    + rewrite Hlook in Hl by done. by apply Hsc.
  - apply List.Forall_forall. intros e He.
    destruct (decide (e = item)) as [->|Hne].
    + exists (with_Matches ms it1). split; [done|]. simpl. done.
    + apply spec_insert_In in He as [->|He]; [done|].
      eapply List.Forall_forall in Hacc; [|exact He].
      destruct Hacc as (ite & Hite & Hme). exists ite. by rewrite Hlook.
  - intros l Hl. destruct (decide (l = item)) as [->|Hne].
    + by rewrite Hnew.
    + by rewrite Hlook.
Qed.

(** One turn of the outer loop on an item that does not match. *)
Lemma rank_skip (word : list rune) (h : gmap loc lsp.CompletionItem)
    item it sc ms rest acc :
  h !! item = Some it ->
  MatchScore (runes (lsp.InsertText it)) word = (sc, ms) ->
  sc <= -1 ->
  rank word (item :: rest) acc h = rank word rest acc h.
Proof.
  intros Hit Hm Hneg. simpl. unfold mbind, M_bind.
  rewrite (deref_Some _ _ _ Hit), Hm.
  by destruct (Z.ltb_spec (-1) sc); [lia|].
Qed.

Lemma rank_Ok_head (word : list rune) (h h' : gmap loc lsp.CompletionItem)
    item rest acc res :
  rank word (item :: rest) acc h = (Ok res, h') -> is_Some (h !! item).
Proof.
  simpl. unfold mbind, M_bind, deref.
  destruct (h !! item); [eauto|discriminate].
Qed.

(** The outer loop computes what the specification describes. *)
Lemma rank_spec (word : list rune) (score : loc -> Z) (items : list loc) :
  forall acc h res h',
    scores word h score -> Forall (ranked word h) acc ->
    rank word items acc h = (Ok res, h') ->
    res = fold_left (fun result c => spec_insert score c result)
            (List.filter (fun c => matchFloor <=? score c) items) acc /\
    Forall (ranked word h') res /\ scores word h' score.
Proof.
  induction items as [|item rest IH]; intros acc h res h' Hsc Hacc Hrun.
  - injection Hrun as <- <-. auto.
  - destruct (rank_Ok_head _ _ _ _ _ _ _ Hrun) as [it Hit].
    destruct (MatchScore (runes (lsp.InsertText it)) word) as [sc ms] eqn:Hm.
    assert (Hkey : score item = sc) by (rewrite <- (Hsc _ _ Hit); by rewrite Hm).
    simpl List.filter. rewrite Hkey. unfold matchFloor.
    destruct (Z.leb_spec 0 sc).
    + destruct (rank_step word score h item it sc ms rest acc Hit Hm)
        as (h2 & Heq & Hsc2 & Hacc2 & _); [lia|done|done|].
      rewrite Heq in Hrun. simpl. by eapply IH.
    + rewrite (rank_skip word h item it sc ms rest acc Hit Hm) in Hrun by lia.
      by eapply IH.
Qed.

(** The outer loop returns when every pointer of the list is allocated. *)
Lemma rank_returns (word : list rune) (score : loc -> Z) (items : list loc) :
  forall acc h,
    scores word h score -> Forall (ranked word h) acc ->
    Forall (fun item => is_Some (h !! item)) items ->
    exists res h', rank word items acc h = (Ok res, h').
Proof.
  induction items as [|item rest IH]; intros acc h Hsc Hacc Hall.
  - by exists acc, h.
  - apply Forall_cons in Hall as [[it Hit] Hall].
    destruct (MatchScore (runes (lsp.InsertText it)) word) as [sc ms] eqn:Hm.
    destruct (Z.leb_spec 0 sc).
    + destruct (rank_step word score h item it sc ms rest acc Hit Hm)
        as (h2 & Heq & Hsc2 & Hacc2 & Hdom); [lia|done|done|].
      rewrite Heq. apply IH; [done|done|].
      eapply List.Forall_impl; [|exact Hall]. intros l. apply Hdom.
    + rewrite (rank_skip word h item it sc ms rest acc Hit Hm) by lia.
      by apply IH.
Qed.

Lemma with_Score_id it : with_Score (lsp.Score it) it = it.
Proof. by destruct it. Qed.

Lemma with_Matches_id it : with_Matches (lsp.Matches it) it = it.
Proof. by destruct it. Qed.

Lemma insertAt_end (item : loc) (l : list loc) :
  insertAt (length l) item l = l ++ [item].
Proof. unfold insertAt. by rewrite take_ge, drop_ge by lia. Qed.

(** On a list that is ranked and in order the outer loop changes nothing. *)
Lemma rank_sorted (word : list rune) (score : loc -> Z)
    (h : gmap loc lsp.CompletionItem) (items : list loc) :
  forall acc,
    scores word h score ->
    Forall (ranked word h) (acc ++ items) ->
    Forall (fun item => -1 < score item) items ->
    StronglySorted (byScore score) (acc ++ items) ->
    rank word items acc h = (Ok (acc ++ items), h).
Proof.
  induction items as [|item rest IH]; intros acc Hsc Hall Hpos Hsorted.
  - by rewrite app_nil_r.
  - assert (Hacc : Forall (ranked word h) acc) by (by apply Forall_app in Hall as [? _]).
    assert (Hitem : ranked word h item).
    { eapply List.Forall_forall in Hall; [exact Hall|].
      apply in_or_app. right. by left. }
    destruct Hitem as (it & Hit & Hm).
    assert (Hkey : lsp.Score it = score item)
      by (rewrite <- (Hsc _ _ Hit); by rewrite Hm).
    apply Forall_cons in Hpos as [Hp Hpos].
    simpl. unfold mbind, M_bind.
    rewrite (deref_Some _ _ _ Hit), Hm.
    destruct (Z.ltb_spec (-1) (lsp.Score it)); [|lia].
    rewrite (scan_to_end h (lsp.Score it) acc 0).
    2:{ pose proof (sorted_before _ _ _ _ Hsorted) as Hle.
        pose proof (ranked_score _ _ _ _ Hsc Hacc) as Hrk.
        apply List.Forall_forall. intros e He.
        eapply List.Forall_forall in Hle; [|exact He].
        eapply List.Forall_forall in Hrk; [|exact He].
        destruct Hrk as (ite & Hite & Hse). exists ite. split; [done|].
        simpl in Hle. lia. }
    rewrite (assign_Some h item it _ Hit), with_Score_id, (insert_id h item it Hit).
    rewrite (assign_Some h item it _ Hit), with_Matches_id, (insert_id h item it Hit).
    simpl. rewrite insertAt_end.
    replace (acc ++ item :: rest) with ((acc ++ [item]) ++ rest)
      by (by rewrite <- app_assoc).
    apply IH; [done| |done|]; by rewrite <- app_assoc.
Qed.

(** The loop of the empty prefix. *)
Lemma clearMatches_keeps (items : list loc) :
  forall h h', clearMatches items h = (Ok tt, h') ->
    forall item, cleared h item -> cleared h' item.
Proof.
  induction items as [|x rest IH]; intros h h' Hrun item Hc.
  - by injection Hrun as <-.
  - simpl in Hrun. unfold mbind, M_bind, deref in Hrun.
    destruct (h !! x) as [it|] eqn:Hx; [|discriminate].
    destruct (0 <? len (lsp.Matches it)).
    + rewrite (assign_Some h x it _ Hx) in Hrun.
      eapply IH; [exact Hrun|].
      destruct (decide (item = x)) as [->|Hne].
      * exists (with_Matches [] it). by rewrite lookup_insert_eq.
      * destruct Hc as (it' & Hit' & Hm). exists it'. by rewrite lookup_insert_ne.
    + eapply IH; [exact Hrun|done].
Qed.

Lemma clearMatches_clears (items : list loc) :
  forall h h', clearMatches items h = (Ok tt, h') -> Forall (cleared h') items.
Proof.
  induction items as [|x rest IH]; intros h h' Hrun; [constructor|].
  pose proof Hrun as Hrun'.
  simpl in Hrun. unfold mbind, M_bind, deref in Hrun.
  destruct (h !! x) as [it|] eqn:Hx; [|discriminate].
  destruct (Z.ltb_spec 0 (len (lsp.Matches it))) as [Hpos|Hzero].
  - rewrite (assign_Some h x it _ Hx) in Hrun.
    constructor; [|eapply IH; exact Hrun].
    eapply clearMatches_keeps; [exact Hrun|].
    exists (with_Matches [] it). by rewrite lookup_insert_eq.
  - change (clearMatches rest h = (Ok tt, h')) in Hrun.
    constructor; [|eapply IH; exact Hrun].
    eapply clearMatches_keeps; [exact Hrun|].
    exists it. split; [done|].
    unfold len in Hzero. destruct (lsp.Matches it); [done|simpl in Hzero; lia].
Qed.

Lemma clearMatches_cleared (items : list loc) (h : gmap loc lsp.CompletionItem) :
  Forall (cleared h) items -> clearMatches items h = (Ok tt, h).
Proof.
  induction 1 as [|x rest (it & Hx & Hm) Hall IH]; [done|].
  simpl. unfold mbind, M_bind. rewrite (deref_Some _ _ _ Hx), Hm. simpl.
  exact IH.
Qed.

Lemma clearMatches_returns (items : list loc) :
  forall h, Forall (fun item => is_Some (h !! item)) items ->
    exists h', clearMatches items h = (Ok tt, h') /\
               forall l, is_Some (h !! l) -> is_Some (h' !! l).
Proof.
  induction items as [|x rest IH]; intros h Hall.
  - by exists h.
  - apply Forall_cons in Hall as [[it Hx] Hall].
    simpl. unfold mbind, M_bind. rewrite (deref_Some _ _ _ Hx).
    destruct (0 <? len (lsp.Matches it)).
    + rewrite (assign_Some h x it _ Hx).
      assert (Hdom : forall l, is_Some (h !! l) ->
                is_Some (<[x := with_Matches [] it]> h !! l)).
      { intros l Hl. destruct (decide (l = x)) as [->|Hne].
        - by rewrite lookup_insert_eq.
        - by rewrite lookup_insert_ne. }
      destruct (IH (<[x := with_Matches [] it]> h)) as (h' & Hrun & Hdom').
      { eapply List.Forall_impl; [|exact Hall]. intros l. apply Hdom. }
      exists h'. split; [done|]. intros l Hl. by apply Hdom', Hdom.
    + destruct (IH h Hall) as (h' & Hrun & Hdom'). by exists h'.
Qed.

Lemma scores_matchScoreOf (word : list rune) (h : gmap loc lsp.CompletionItem) :
  scores word h (matchScoreOf h word).
Proof. intros item it Hit. unfold matchScoreOf. by rewrite Hit. Qed.

Lemma len_nonempty {A} (l : list A) : l <> [] -> (len l =? 0) = false.
Proof. destruct l; [done|]. intros _. unfold len. simpl. lia. Qed.

Lemma stored_is_matched (word : list rune) (score : loc -> Z)
    (h : gmap loc lsp.CompletionItem) (item : loc) :
  scores word h score -> ranked word h item -> storedScore h item = score item.
Proof.
  intros Hsc (it & Hit & Hm). unfold storedScore. rewrite Hit.
  rewrite <- (Hsc _ _ Hit). by rewrite Hm.
Qed.

(** C1. For a list of allocated candidates and a prefix that is not empty,
    the ranking returns; the scores of the result, read from front to back,
    never decrease; the result holds exactly the candidates whose score is
    not below the floor of the matcher; and it is the sequence obtained by
    inserting the surviving candidates one by one, each before the first
    entry with a score greater than its own, after the entries with a score
    less than or equal to it. *)
Theorem matchCompletionItems_ranking
    (h : gmap loc lsp.CompletionItem) (items : list loc) (word : list rune) :
  word <> [] ->
  (forall item, In item items -> is_Some (h !! item)) ->
  exists res h',
    matchCompletionItems items word h = (Ok res, h') /\
    Sorted Z.le (map (storedScore h') res) /\
    (forall item, In item res <->
                  In item items /\ matchFloor <= matchScoreOf h word item) /\
    (forall item, In item res -> storedScore h' item = matchScoreOf h word item) /\
    res = spec_rank (matchScoreOf h word) items.
Proof.
  intros Hword Hall.
  pose proof (scores_matchScoreOf word h) as Hsc.
  destruct (rank_returns word _ items [] h Hsc) as (res & h' & Hrun);
    [constructor|by apply List.Forall_forall|].
  destruct (rank_spec word _ items [] h res h' Hsc) as (Hres & Hrk & Hsc');
    [constructor|done|].
  assert (Hstored : forall item, In item res ->
            storedScore h' item = matchScoreOf h word item).
  { intros item Hin. apply (stored_is_matched word); [done|].
    by eapply List.Forall_forall in Hrk. }
  exists res, h'. unfold matchCompletionItems.
  rewrite (len_nonempty _ Hword). split; [done|]. split; [|split; [|done]].
  - rewrite (map_ext_in _ _ res Hstored).
    apply sorted_map_score. rewrite Hres.
    apply fold_spec_insert_sorted. constructor.
  - intros item. rewrite Hres, fold_spec_insert_In, filter_In.
    unfold matchFloor. rewrite Z.leb_le. simpl. tauto.
Qed.

(** C7. When the ranking of a list against a prefix has returned, ranking
    its result against the same prefix on the heap it left returns the same
    sequence, and leaves the heap as it was. *)
Theorem matchCompletionItems_idempotent
    (h h' : gmap loc lsp.CompletionItem) (items res : list loc) (word : list rune) :
  matchCompletionItems items word h = (Ok res, h') ->
  matchCompletionItems res word h' = (Ok res, h').
Proof.
  unfold matchCompletionItems.
  destruct (len word =? 0) eqn:Hw.
  - unfold mbind, M_bind.
    destruct (clearMatches items h) as [[[]|] h1] eqn:Hrun; [|discriminate].
    intros [= <- <-].
    by rewrite (clearMatches_cleared items h1 (clearMatches_clears _ _ _ Hrun)).
  - intros Hrun.
    pose proof (scores_matchScoreOf word h) as Hsc.
    destruct (rank_spec word _ items [] h res h' Hsc) as (Hres & Hrk & Hsc');
      [constructor|done|].
    apply (rank_sorted word (matchScoreOf h word) h' res []); [done|done| |].
    + apply List.Forall_forall. intros item Hin.
      rewrite Hres in Hin. apply fold_spec_insert_In in Hin as [[]|Hin].
      apply filter_In in Hin as [_ Hin]. unfold matchFloor in Hin. lia.
    + simpl. rewrite Hres. apply fold_spec_insert_sorted. constructor.
Qed.

(** *** The completion state machine *)

Lemma set_completionItems_nil (p : Plugin) :
  completionItems p = [] -> set_completionItems [] p = p.
Proof. destruct p. simpl. by intros ->. Qed.

Lemma len_pos_nonempty {A} (l : list A) : (0 <? len l) = false -> l = [].
Proof.
  destruct l; [done|]. unfold len. intros H. apply Z.ltb_ge in H.
  simpl in H. lia.
Qed.

Lemma notifyCompletion_run (items : list loc) (p : Plugin) :
  notifyCompletion items p =
  (Ok tt,
   emit (map (fun conn => NotifyCompletion conn (map (fun item => heap p !! item) items))
           (conns p))
     (set_completionShown (0 <? len items) p)).
Proof. reflexivity. Qed.

(** C4. An edit that inserts two or more characters leaves the plugin
    without candidates (an Active list is discarded, an Idle one stays
    empty), sends that current, empty list to every listener, and sends
    nothing else: no completion query reaches the backend. *)
Theorem complete_bulk_insert (p : Plugin) (lspClient : lsp.Client)
    (view : plugin.View) (text deletedText : string) (startRow startCol : Z) :
  1 < len (runes text) ->
  exists p',
    complete lspClient view text deletedText startRow startCol p = (Ok tt, p') /\
    p' = afterReset p /\
    completionItems p' = [] /\
    trace p' = trace p ++ map (fun conn => NotifyCompletion conn []) (conns p) /\
    Forall (fun e => isQuery e = false)
      (map (fun conn => NotifyCompletion conn []) (conns p)).
Proof.
  intros H. apply Z.ltb_lt in H. exists (afterReset p).
  split; [|repeat split].
  - unfold complete. rewrite H. simpl.
    unfold mbind, M_bind, get. simpl.
    destruct (0 <? len (completionItems p)) eqn:Hact; simpl.
    + apply notifyCompletion_run.
    + rewrite notifyCompletion_run. unfold afterReset.
      rewrite (set_completionItems_nil p (len_pos_nonempty _ Hact)).
      by rewrite (len_pos_nonempty _ Hact).
  - apply List.Forall_forall. intros e He.
    by apply in_map_iff in He as (conn & <- & _).
Qed.

(** C5. With candidates held, an edit that inserts exactly one character
    that is neither the dot nor an identifier character clears the list,
    sends the now empty list to every listener, and sends nothing else: no
    completion query reaches the backend. *)
Theorem complete_punctuation (p : Plugin) (lspClient : lsp.Client)
    (view : plugin.View) (text deletedText : string) (startRow startCol : Z)
    (r : rune) :
  runes text = [r] ->
  r <> 46 -> UtfClass r <> 2 ->
  completionItems p <> [] ->
  exists p',
    complete lspClient view text deletedText startRow startCol p = (Ok tt, p') /\
    p' = afterReset p /\
    completionItems p' = [] /\
    trace p' = trace p ++ map (fun conn => NotifyCompletion conn []) (conns p) /\
    Forall (fun e => isQuery e = false)
      (map (fun conn => NotifyCompletion conn []) (conns p)).
Proof.
  intros Hr Hdot Hcls Hact. exists (afterReset p).
  split; [|repeat split].
  - assert (Hc : (UtfClass r =? 2) = false) by (by apply Z.eqb_neq).
    assert (Hd : (r =? 46) = false) by (by apply Z.eqb_neq).
    unfold complete. rewrite Hr.
    unfold anyNotIdentifier, mbind, M_bind, get, liftO, index. simpl.
    rewrite Hc, Hd. simpl.
    destruct (0 <? len (completionItems p)) eqn:Ha.
    + simpl. apply notifyCompletion_run.
    + by apply len_pos_nonempty in Ha.
  - apply List.Forall_forall. intros e He.
    by apply in_map_iff in He as (conn & <- & _).
Qed.

(** *** The change synchroniser *)

(** C8. When the text model reports that an update changed nothing, the
    handler returns 0 having sent nothing (no change notification, no
    completion query, no message to a listener): the trace is as before,
    and of the plugin only the view of the update, which the text model
    owns, may differ. *)
Theorem handle_unchanged (p : Plugin) (r : Update)
    (view view' : plugin.View) (d : EditDelta) :
  views p !! ViewID r = Some view ->
  ApplyUpdate view r = (view', d) ->
  changed d = false ->
  exists p',
    handle (UpdateRequest r) p = (RetInt 0, p') /\
    p' = set_views (<[ViewID r := view']> (views p)) p /\
    trace p' = trace p /\
    completionItems p' = completionItems p /\
    completionShown p' = completionShown p /\
    heap p' = heap p /\
    lsp p' = lsp p /\
    conns p' = conns p /\
    (forall id, id <> ViewID r -> views p' !! id = views p !! id).
Proof.
  intros Hview Happly Hch.
  exists (set_views (<[ViewID r := view']> (views p)) p).
  split; [|repeat split].
  - unfold handle, handleUpdate, mbind, M_bind, get. simpl.
    rewrite Hview. simpl. rewrite Happly, Hch. reflexivity.
  - intros id Hid. simpl. by rewrite lookup_insert_ne.
Qed.

(** What the parts of the handler append to the trace. *)

Lemma emits_ret {A} (P : Event -> Prop) (a : A) : emits P (mret a).
Proof. intros p. exists []. simpl. by rewrite app_nil_r. Qed.

Lemma emits_bind {A B} (P : Event -> Prop) (m : M Plugin A) (f : A -> M Plugin B) :
  emits P m -> (forall a, emits P (f a)) -> emits P (m ≫= f).
Proof.
  intros Hm Hf p. unfold mbind, M_bind.
  destruct (Hm p) as (e1 & H1 & F1).
  destruct (m p) as [[a|] p1]; simpl in *.
  - destruct (Hf a p1) as (e2 & H2 & F2).
    exists (e1 ++ e2). rewrite H2, H1, app_assoc. split; [done|].
    apply Forall_app. by split.
  - by exists e1.
Qed.

Lemma emits_get (P : Event -> Prop) : emits P get.
Proof. intros p. exists []. simpl. by rewrite app_nil_r. Qed.

Lemma emits_liftO {A} (P : Event -> Prop) (o : Outcome A) : emits P (liftO o).
Proof. intros p. exists []. simpl. by rewrite app_nil_r. Qed.

Lemma emits_modify (P : Event -> Prop) (f : Plugin -> Plugin) :
  (forall p, trace (f p) = trace p) -> emits P (modify f).
Proof. intros H p. exists []. simpl. by rewrite H, app_nil_r. Qed.

Lemma emits_emit (P : Event -> Prop) (evs : list Event) :
  Forall P evs -> emits P (modify (emit evs)).
Proof. intros H p. by exists evs. Qed.

Lemma emits_onHeap {A} (P : Event -> Prop)
    (m : M (gmap loc lsp.CompletionItem) A) : emits P (onHeap m).
Proof.
  intros p. exists []. unfold onHeap. destruct (m (heap p)). simpl.
  by rewrite app_nil_r.
Qed.

Lemma emits_notifyCompletion (P : Event -> Prop) (items : list loc) :
  (forall conn payload, P (NotifyCompletion conn payload)) ->
  emits P (notifyCompletion items).
Proof.
  intros HP. unfold notifyCompletion.
  apply emits_bind; [by apply emits_modify|intros _].
  apply emits_bind; [apply emits_get|intros p].
  apply emits_emit, List.Forall_forall. intros e He.
  by apply in_map_iff in He as (conn & <- & _).
Qed.

Lemma emits_notifyCompletionPos (P : Event -> Prop) (pos : lsp.Position) :
  (forall conn pos, P (NotifyCompletionPos conn pos)) ->
  emits P (notifyCompletionPos pos).
Proof.
  intros HP. unfold notifyCompletionPos.
  apply emits_bind; [apply emits_get|intros p].
  apply emits_emit, List.Forall_forall. intros e He.
  by apply in_map_iff in He as (conn & <- & _).
Qed.

Lemma emits_callCompletion (P : Event -> Prop) lspClient params :
  (forall c q reply, P (CompletionQuery c q reply)) ->
  emits P (callCompletion lspClient params).
Proof.
  intros HP. unfold callCompletion.
  apply emits_bind; [apply emits_get|intros p].
  apply emits_bind; [apply emits_emit; by repeat constructor|intros _].
  destruct (Completion (trace p) lspClient params); [|apply emits_ret].
  destruct (alloc l (heap p)).
  apply emits_bind; [by apply emits_modify|intros _]. apply emits_ret.
Qed.

Lemma emits_queryAt lspClient view startRow startCol word :
  emits notDidChange (queryAt lspClient view startRow startCol word).
Proof.
  unfold queryAt.
  apply emits_bind; [by apply emits_callCompletion|intros [items|]];
    [|apply emits_ret].
  apply emits_bind; [by apply emits_notifyCompletionPos|intros _].
  apply emits_bind; [by apply emits_modify|intros _].
  apply emits_bind; [apply emits_get|intros p]. apply emits_onHeap.
Qed.

Lemma emits_getCompletionItems lspClient view text startRow startCol :
  emits notDidChange (getCompletionItems lspClient view text startRow startCol).
Proof.
  unfold getCompletionItems.
  apply emits_bind; [apply emits_get|intros p].
  destruct (0 <? len (completionItems p)).
  { apply emits_bind; [apply emits_liftO|intros [b word]]. apply emits_onHeap. }
  destruct (Z.of_nat (String.length text) =? 1).
  - destruct (String.eqb text "."); [apply emits_queryAt|].
    apply emits_bind; [apply emits_liftO|intros r].
    destruct (UtfClass r =? 2); [|apply emits_queryAt].
    apply emits_bind; [apply emits_liftO|intros [b word]]. apply emits_queryAt.
  - destruct (String.eqb text ""); [apply emits_ret|apply emits_queryAt].
Qed.

Lemma emits_complete lspClient view text deletedText startRow startCol :
  emits notDidChange (complete lspClient view text deletedText startRow startCol).
Proof.
  unfold complete.
  apply emits_bind; [apply emits_get|intros p].
  apply emits_bind.
  { match goal with |- context [if ?b then _ else _] => destruct b end;
      [by apply emits_modify|apply emits_ret]. }
  intros _.
  destruct (1 <? len (runes text)).
  { apply emits_bind; [apply emits_get|intros q]. by apply emits_notifyCompletion. }
  apply emits_bind.
  { destruct (0 <? len (runes text)); [|apply emits_ret].
    apply emits_bind; [apply emits_liftO|intros r]. apply emits_ret. }
  intros [|].
  - apply emits_bind; [apply emits_get|intros q]. by apply emits_notifyCompletion.
  - apply emits_bind; [apply emits_getCompletionItems|intros items].
    by apply emits_notifyCompletion.
Qed.

Lemma int_wrap_small (z : Z) : - 2 ^ 63 <= z < 2 ^ 63 -> int_wrap z = z.
Proof. intros H. unfold int_wrap. rewrite Z.mod_small; lia. Qed.

(** C3. For an accepted edit the handler sends the backend of the document
    one change notification, before anything else. It is tagged with the
    revision of the view after the edit (as an [int]; the revision itself
    when it fits one). When the backend declared full synchronisation
    (kind 1) the change has no range and its text is the whole content of
    the text model; for any other declared kind, incremental among them,
    the change has the start and end positions of the edit as its range and
    the inserted text as its text. *)
Theorem handle_didChange (p : Plugin) (r : Update)
    (view view' : plugin.View) (d : EditDelta) (client : lsp.Client) :
  views p !! ViewID r = Some view ->
  ApplyUpdate view r = (view', d) ->
  changed d = true ->
  lsp p !! plugin.Syntax view' = Some client ->
  exists change rest,
    trace (snd (handle (UpdateRequest r) p)) =
      trace p ++
      DidChange client
        {| lsp.TextDocument :=
             {| lsp.URI := "file://" ++ plugin.Path view';
                lsp.Version := int_wrap (plugin.Rev view') |};
           lsp.ContentChanges := [change] |} :: rest /\
    Forall (fun e => isDidChange e = false) rest /\
    (lsp.TextDocumentSync client = 1 ->
     change = {| lsp.Range_ := None;
                 lsp.Text := plugin.Raw (plugin.Cache view') |}) /\
    (lsp.TextDocumentSync client <> 1 ->
     change = {| lsp.Range_ :=
                   Some {| lsp.Start := {| lsp.Line := startRow d;
                                           lsp.Character := startCol d |};
                           lsp.End_ := {| lsp.Line := endRow d;
                                          lsp.Character := endCol d |} |};
                 lsp.Text := text d |}) /\
    (- 2 ^ 63 <= plugin.Rev view' < 2 ^ 63 ->
     int_wrap (plugin.Rev view') = plugin.Rev view').
Proof.
  intros Hview Happly Hch Hclient.
  unfold handle, handleUpdate, mbind, M_bind, get. simpl.
  rewrite Hview. simpl. rewrite Happly, Hch. simpl. rewrite Hclient. simpl.
  match goal with
  | |- context [complete ?c ?v ?t ?dt ?sr ?sc ?q] =>
    destruct (emits_complete c v t dt sr sc q) as (rest & Htr & Hrest);
    destruct (complete c v t dt sr sc q) as [[[]|] p']
  end; simpl in *.
  all: eexists _, rest; rewrite Htr, <- app_assoc; simpl.
  all: split; [reflexivity|]; split; [done|].
  all: split; [intros ->; reflexivity|].
  all: split; [|apply int_wrap_small].
  all: intros Hs; by destruct (Z.eqb_spec (lsp.TextDocumentSync client) 1).
Qed.

(** *** Fetch or narrow *)

Lemma onHeap_frame {A} (m : M (gmap loc lsp.CompletionItem) A) (p : Plugin) :
  trace (snd (onHeap m p)) = trace p /\
  completionItems (snd (onHeap m p)) = completionItems p /\
  completionShown (snd (onHeap m p)) = completionShown p.
Proof. unfold onHeap. by destruct (m (heap p)). Qed.

(** The query that fails: nothing but the query itself happens. *)
Lemma queryAt_fails lspClient view startRow startCol word (p : Plugin) :
  let params := paramsAt view {| lsp.Line := startRow; lsp.Character := startCol |} in
  Completion (trace p) lspClient params = None ->
  queryAt lspClient view startRow startCol word p =
  (Ok [], emit [CompletionQuery lspClient params None] p).
Proof.
  intros params H. unfold queryAt, callCompletion, mbind, M_bind, get. simpl.
  fold params. by rewrite H.
Qed.

(** The query that succeeds: the query, then the anchor sent to every
    listener; the items of the answer become the stored list. *)
Lemma queryAt_succeeds lspClient view startRow startCol word (p : Plugin) its :
  let pos := {| lsp.Line := startRow; lsp.Character := startCol |} in
  Completion (trace p) lspClient (paramsAt view pos) = Some its ->
  exists o p',
    queryAt lspClient view startRow startCol word p = (o, p') /\
    trace p' = trace p ++
      CompletionQuery lspClient (paramsAt view pos) (Some its) ::
      map (fun conn => NotifyCompletionPos conn pos) (conns p) /\
    completionItems p' = fst (alloc its (heap p)).
Proof.
  intros pos H. unfold queryAt, callCompletion, mbind, M_bind, get. simpl.
  fold pos. rewrite H.
  destruct (alloc its (heap p)) as [ls h'] eqn:Ha. simpl.
  match goal with |- context [onHeap ?m ?q] =>
    destruct (onHeap_frame m q) as (Ht & Hi & _);
    destruct (onHeap m q) as [o p'] end.
  exists o, p'. split; [done|]. simpl in *. rewrite Ht, Hi.
  by rewrite <- app_assoc.
Qed.

(** A run of [getCompletionItems] either sends nothing, or starts Idle and
    is a query at some anchor. *)
Lemma getCompletionItems_cases lspClient view text startRow startCol (p : Plugin) :
  trace (snd (getCompletionItems lspClient view text startRow startCol p)) = trace p \/
  (completionItems p = [] /\
   exists col word,
     getCompletionItems lspClient view text startRow startCol p =
     queryAt lspClient view startRow col word p).
Proof.
  unfold getCompletionItems, mbind, M_bind, get, liftO. simpl.
  destruct (0 <? len (completionItems p)) eqn:Hact.
  { left. destruct (getWord _ _ _) as [[b word]|]; [|done].
    apply onHeap_frame. }
  apply len_pos_nonempty in Hact.
  destruct (Z.of_nat (String.length text) =? 1).
  - destruct (String.eqb text "."); [right; eauto|].
    destruct (index (runes text) 0) as [r|]; [|by left].
    destruct (UtfClass r =? 2); [|right; eauto].
    destruct (getWord view startRow startCol) as [[b word]|]; [right; eauto|by left].
  - destruct (String.eqb text ""); [by left|right; eauto].
Qed.

(** C9. When a run of the fetch-or-narrow operation contains a completion
    query that failed, the operation returns the empty list, the session
    was Idle and still is, and nothing of the plugin has changed but the
    record of that one query: no state of the attempt is kept, and a later
    edit meets the same Idle session and queries again. *)
Theorem getCompletionItems_query_fails (p p' : Plugin) lspClient view text
    startRow startCol (res : Outcome (list loc)) (evs : list Event)
    (c : lsp.Client) (params : lsp.TextDocumentPositionParams) :
  getCompletionItems lspClient view text startRow startCol p = (res, p') ->
  trace p' = trace p ++ evs ->
  In (CompletionQuery c params None) evs ->
  res = Ok [] /\
  completionItems p = [] /\
  p' = emit [CompletionQuery c params None] p /\
  completionItems p' = [] /\
  heap p' = heap p /\
  completionShown p' = completionShown p.
Proof.
  intros Hrun Htr Hin.
  destruct (getCompletionItems_cases lspClient view text startRow startCol p)
    as [Hsame|(Hidle & col & word & Heq)].
  - rewrite Hrun in Hsame. simpl in Hsame. rewrite Htr in Hsame.
    rewrite <- (app_nil_r (trace p)) in Hsame at 2.
    apply app_inv_head in Hsame. by subst evs.
  - rewrite Heq in Hrun.
    set (pos := {| lsp.Line := startRow; lsp.Character := col |}) in *.
    destruct (Completion (trace p) lspClient (paramsAt view pos)) as [its|] eqn:Hreply.
    + destruct (queryAt_succeeds lspClient view startRow col word p its Hreply)
        as (o & q & Hq & Hqt & _).
      rewrite Hq in Hrun. injection Hrun as -> ->.
      rewrite Htr in Hqt. apply app_inv_head in Hqt. subst evs.
      destruct Hin as [Hin|Hin]; [discriminate|].
      by apply in_map_iff in Hin as (conn & Hconn & _).
    + rewrite (queryAt_fails lspClient view startRow col word p Hreply) in Hrun.
      injection Hrun as <- <-. simpl in Htr.
      apply app_inv_head in Htr. subst evs.
      destruct Hin as [Hin|[]]. injection Hin as <- <-.
      by rewrite Hidle.
Qed.

(** An Active session narrows: the stored list is ranked against the word
    before the cursor and nothing is sent. *)
Lemma getCompletionItems_narrows lspClient view text startRow startCol
    (p : Plugin) (boundary : Z) (word : list rune) :
  completionItems p <> [] ->
  getWord view startRow
    (if String.eqb text "" then int_wrap (startCol - 1) else startCol)
  = Ok (boundary, word) ->
  getCompletionItems lspClient view text startRow startCol p =
    onHeap (matchCompletionItems (completionItems p) word) p /\
  trace (snd (getCompletionItems lspClient view text startRow startCol p)) = trace p /\
  completionItems (snd (getCompletionItems lspClient view text startRow startCol p))
  = completionItems p.
Proof.
  intros Hact Hword.
  assert (Heq : getCompletionItems lspClient view text startRow startCol p =
                onHeap (matchCompletionItems (completionItems p) word) p).
  { unfold getCompletionItems, mbind, M_bind, get, liftO. simpl.
    destruct (0 <? len (completionItems p)) eqn:Ha;
      [|by apply len_pos_nonempty in Ha].
    by rewrite Hword. }
  rewrite Heq. split; [done|]. split; apply onHeap_frame.
Qed.

Lemma queryAt_trace lspClient view startRow startCol word (p : Plugin) :
  exists reply rest,
    trace (snd (queryAt lspClient view startRow startCol word p)) =
    trace p ++
    CompletionQuery lspClient
      (paramsAt view {| lsp.Line := startRow; lsp.Character := startCol |}) reply
    :: rest.
Proof.
  set (pos := {| lsp.Line := startRow; lsp.Character := startCol |}).
  destruct (Completion (trace p) lspClient (paramsAt view pos)) as [its|] eqn:Hreply.
  - destruct (queryAt_succeeds lspClient view startRow startCol word p its Hreply)
      as (o & q & Hq & Hqt & _).
    rewrite Hq. simpl. eauto.
  - rewrite (queryAt_fails lspClient view startRow startCol word p Hreply).
    simpl. eauto.
Qed.

(** An Idle session and one inserted identifier character of one byte: the
    query is anchored at the start of the word. *)
Lemma getCompletionItems_fetches lspClient view text startRow startCol
    (p : Plugin) (r : rune) (boundary : Z) (word : list rune) :
  completionItems p = [] ->
  String.length text = 1%nat -> text <> "."%string ->
  index (runes text) 0 = Ok r -> UtfClass r = 2 ->
  getWord view startRow startCol = Ok (boundary, word) ->
  getCompletionItems lspClient view text startRow startCol p =
    queryAt lspClient view startRow boundary word p /\
  exists reply rest,
    trace (snd (getCompletionItems lspClient view text startRow startCol p)) =
    trace p ++
    CompletionQuery lspClient
      (paramsAt view {| lsp.Line := startRow; lsp.Character := boundary |}) reply
    :: rest.
Proof.
  intros Hidle Hlen Hdot Hr Hcls Hword.
  assert (Heq : getCompletionItems lspClient view text startRow startCol p =
                queryAt lspClient view startRow boundary word p).
  { unfold getCompletionItems, mbind, M_bind, get, liftO. simpl.
    rewrite Hidle, Hlen. simpl.
    destruct (String.eqb_spec text "."); [done|].
    by rewrite Hr, Hcls, Hword. }
  rewrite Heq. split; [done|]. apply queryAt_trace.
Qed.

(** An Idle session and an inserted text of two bytes or more: the branch
    on [len(text) == 1] is not taken, the word is not scanned, and the query
    is anchored at the column of the edit. *)
Lemma getCompletionItems_long_text lspClient view text startRow startCol
    (p : Plugin) :
  completionItems p = [] ->
  (1 < String.length text)%nat ->
  getCompletionItems lspClient view text startRow startCol p =
    queryAt lspClient view startRow startCol [] p /\
  exists reply rest,
    trace (snd (getCompletionItems lspClient view text startRow startCol p)) =
    trace p ++
    CompletionQuery lspClient
      (paramsAt view {| lsp.Line := startRow; lsp.Character := startCol |}) reply
    :: rest.
Proof.
  intros Hidle Hlen.
  assert (Heq : getCompletionItems lspClient view text startRow startCol p =
                queryAt lspClient view startRow startCol [] p).
  { unfold getCompletionItems, mbind, M_bind, get, liftO. simpl.
    rewrite Hidle. simpl.
    destruct (Z.eqb_spec (Z.of_nat (String.length text)) 1); [lia|].
    destruct (String.eqb_spec text ""); [|done].
    subst text. simpl in Hlen. lia. }
  rewrite Heq. split; [done|]. apply queryAt_trace.
Qed.

(** *** More on the ranking pass *)

Lemma sameTexts_refl (h : gmap loc lsp.CompletionItem) : sameTexts h h.
Proof. by intros item. Qed.

Lemma sameTexts_trans (h1 h2 h3 : gmap loc lsp.CompletionItem) :
  sameTexts h1 h2 -> sameTexts h2 h3 -> sameTexts h1 h3.
Proof. intros H12 H23 item. by rewrite H23, H12. Qed.

Lemma sameTexts_allocated (h h' : gmap loc lsp.CompletionItem) (item : loc) :
  sameTexts h h' -> (allocated h' item <-> allocated h item).
Proof.
  intros H. unfold allocated. specialize (H item).
  destruct (h !! item), (h' !! item); simpl in H; try discriminate;
    split; intros [x Hx]; eauto; discriminate.
Qed.

(** A write that keeps [InsertText] changes nothing the frame speaks of. *)
Lemma sameTexts_insert (h : gmap loc lsp.CompletionItem) item it it' :
  h !! item = Some it -> lsp.InsertText it' = lsp.InsertText it ->
  sameTexts h (<[item := it']> h) /\
  (forall l, l <> item -> <[item := it']> h !! l = h !! l).
Proof.
  intros Hit Htext. split.
  - intros l. destruct (decide (l = item)) as [->|Hne].
    + by rewrite lookup_insert_eq, Hit; simpl; rewrite Htext.
    + by rewrite lookup_insert_ne.
  - intros l Hne. by rewrite lookup_insert_ne.
Qed.

Lemma scan_frame (score : Z) (rest : list loc) :
  forall i h o h', scan score rest i h = (o, h') -> h' = h.
Proof.
  induction rest as [|e rest IH]; intros i h o h' Hrun; simpl in Hrun.
  - by injection Hrun as _ <-.
  - unfold mbind, M_bind, deref in Hrun.
    destruct (h !! e) as [it|]; [|by injection Hrun as _ <-].
    destruct (score <? lsp.Score it); [by injection Hrun as _ <-|].
    by eapply IH.
Qed.

(** The loop of the empty prefix writes [Matches] only, and only through
    the pointers of the list. *)
Lemma clearMatches_frame (items : list loc) :
  forall h o h', clearMatches items h = (o, h') ->
    sameTexts h h' /\
    (forall l, lsp.Score <$> (h' !! l) = lsp.Score <$> (h !! l)) /\
    (forall l, ~ In l items -> h' !! l = h !! l).
Proof.
  induction items as [|x rest IH]; intros h o h' Hrun; simpl in Hrun.
  - injection Hrun as _ <-. split; [apply sameTexts_refl|by split].
  - unfold mbind, M_bind, deref in Hrun.
    destruct (h !! x) as [it|] eqn:Hx.
    2:{ injection Hrun as _ <-. split; [apply sameTexts_refl|by split]. }
    destruct (0 <? len (lsp.Matches it)).
    + rewrite (assign_Some h x it _ Hx) in Hrun.
      destruct (IH _ _ _ Hrun) as (Ht & Hs & Hf).
      destruct (sameTexts_insert h x it (with_Matches [] it) Hx eq_refl) as [Ht0 Hf0].
      split; [by eapply sameTexts_trans|]. split.
      * intros l. rewrite Hs. destruct (decide (l = x)) as [->|Hne].
        -- by rewrite lookup_insert_eq, Hx.
        -- by rewrite lookup_insert_ne.
      * intros l Hl. rewrite Hf, Hf0; [done| |]; intros Hin; apply Hl;
          [by left; subst|by right].
    + change (clearMatches rest h = (o, h')) in Hrun.
      destruct (IH _ _ _ Hrun) as (Ht & Hs & Hf).
      split; [done|]. split; [done|].
      intros l Hl. apply Hf. intros Hin. apply Hl. by right.
Qed.

(** The outer loop writes [Score] and [Matches] only, and only through the
    pointers of the list; this holds of a run that panics as well. *)
Lemma rank_frame (word : list rune) (items : list loc) :
  forall acc h o h', rank word items acc h = (o, h') ->
    sameTexts h h' /\ (forall l, ~ In l items -> h' !! l = h !! l).
Proof.
  induction items as [|x rest IH]; intros acc h o h' Hrun; simpl in Hrun.
  - injection Hrun as _ <-. split; [apply sameTexts_refl|done].
  - unfold mbind, M_bind in Hrun. unfold deref at 1 in Hrun.
    destruct (h !! x) as [it|] eqn:Hx.
    2:{ injection Hrun as _ <-. split; [apply sameTexts_refl|done]. }
    destruct (MatchScore (runes (lsp.InsertText it)) word) as [sc ms].
    destruct (-1 <? sc).
    + destruct (scan sc acc 0 h) as [[j|] hs] eqn:Hscan;
        pose proof (scan_frame _ _ _ _ _ _ Hscan) as ->.
      2:{ injection Hrun as _ <-. split; [apply sameTexts_refl|done]. }
      rewrite (assign_Some h x it _ Hx) in Hrun.
      destruct (sameTexts_insert h x it (with_Score sc it) Hx eq_refl) as [Ht1 Hf1].
      set (h1 := <[x := with_Score sc it]> h) in *.
      assert (Hx1 : h1 !! x = Some (with_Score sc it))
        by (unfold h1; by rewrite lookup_insert_eq).
      rewrite (assign_Some h1 x _ _ Hx1) in Hrun.
      destruct (sameTexts_insert h1 x _ (with_Matches ms (with_Score sc it)) Hx1 eq_refl)
        as [Ht2 Hf2].
      destruct (IH _ _ _ _ Hrun) as (Ht & Hf).
      split; [eapply sameTexts_trans; [|exact Ht]; by eapply sameTexts_trans|].
      intros l Hl. rewrite Hf, Hf2, Hf1; [done| | |]; intros Hin; apply Hl;
        [by left; subst|by left; subst|by right].
    + destruct (IH _ _ _ _ Hrun) as (Ht & Hf). split; [done|].
      intros l Hl. apply Hf. intros Hin. apply Hl. by right.
Qed.

(** X3. Whatever the list and the prefix, and whether the pass returns or
    panics, it allocates and frees nothing, leaves the [InsertText] of every
    item as it was, and leaves every item that no pointer of the list points
    to entirely as it was. *)
Theorem matchCompletionItems_frame (h h' : gmap loc lsp.CompletionItem)
    (items : list loc) (word : list rune) (o : Outcome (list loc)) :
  matchCompletionItems items word h = (o, h') ->
  dom h' = dom h /\
  (forall item, lsp.InsertText <$> (h' !! item) = lsp.InsertText <$> (h !! item)) /\
  (forall item, ~ In item items -> h' !! item = h !! item).
Proof.
  intros Hrun.
  assert (H : sameTexts h h' /\ (forall l, ~ In l items -> h' !! l = h !! l)).
  { unfold matchCompletionItems in Hrun. destruct (len word =? 0).
    - unfold mbind, M_bind in Hrun.
      destruct (clearMatches items h) as [[[]|] h1] eqn:Hc;
        injection Hrun as _ <-;
        destruct (clearMatches_frame _ _ _ _ Hc) as (Ht & _ & Hf); by split.
    - by eapply rank_frame. }
  destruct H as [Ht Hf]. split; [|by split].
  apply set_eq. intros item. rewrite !elem_of_dom.
  apply (sameTexts_allocated h h' item Ht).
Qed.

Lemma rank_Ok_allocated (word : list rune) (items : list loc) :
  forall acc h res h', rank word items acc h = (Ok res, h') ->
    Forall (allocated h) items.
Proof.
  induction items as [|x rest IH]; intros acc h res h' Hrun; [constructor|].
  destruct (rank_Ok_head _ _ _ _ _ _ _ Hrun) as [it Hx].
  constructor; [by exists it|].
  simpl in Hrun. unfold mbind, M_bind in Hrun. unfold deref at 1 in Hrun.
  rewrite Hx in Hrun.
  destruct (MatchScore (runes (lsp.InsertText it)) word) as [sc ms].
  destruct (-1 <? sc); [|by eapply IH].
  destruct (scan sc acc 0 h) as [[j|] hs] eqn:Hscan; [|discriminate].
  pose proof (scan_frame _ _ _ _ _ _ Hscan) as ->.
  rewrite (assign_Some h x it _ Hx) in Hrun.
  destruct (sameTexts_insert h x it (with_Score sc it) Hx eq_refl) as [Ht1 _].
  set (h1 := <[x := with_Score sc it]> h) in *.
  assert (Hx1 : h1 !! x = Some (with_Score sc it))
    by (unfold h1; by rewrite lookup_insert_eq).
  rewrite (assign_Some h1 x _ _ Hx1) in Hrun.
  destruct (sameTexts_insert h1 x _ (with_Matches ms (with_Score sc it)) Hx1 eq_refl)
    as [Ht2 _].
  eapply List.Forall_impl; [|exact (IH _ _ _ _ Hrun)].
  intros l Hl.
  apply (sameTexts_allocated h _ l (sameTexts_trans _ _ _ Ht1 Ht2)), Hl.
Qed.

(** X2. The pass returns exactly when no pointer of the list is nil: a
    single nil pointer, anywhere in the list, makes it panic, for the empty
    prefix as for any other. *)
Theorem matchCompletionItems_returns_iff (h : gmap loc lsp.CompletionItem)
    (items : list loc) (word : list rune) :
  (exists res h', matchCompletionItems items word h = (Ok res, h')) <->
  Forall (allocated h) items.
Proof.
  unfold matchCompletionItems. destruct (len word =? 0); split.
  - intros (res & h' & Hrun). unfold mbind, M_bind in Hrun.
    destruct (clearMatches items h) as [[[]|] h1] eqn:Hc; [|discriminate].
    destruct (clearMatches_frame _ _ _ _ Hc) as (Ht & _).
    eapply List.Forall_impl; [|exact (clearMatches_clears _ _ _ Hc)].
    intros l (it & Hl & _). apply (sameTexts_allocated h h1 l Ht). by exists it.
  - intros Hall. destruct (clearMatches_returns items h Hall) as (h' & Hrun & _).
    exists items, h'. unfold mbind, M_bind. by rewrite Hrun.
  - intros (res & h' & Hrun). by eapply rank_Ok_allocated.
  - intros Hall.
    apply (rank_returns word _ items [] h (scores_matchScoreOf word h));
      [constructor|exact Hall].
Qed.

(** X1. For the empty prefix and a list without nil pointers the pass
    returns the list itself, in its order; afterwards every item of the list
    has no matched positions, and the text and the score of every item of
    the heap are what they were. *)
Theorem matchCompletionItems_empty_prefix_keeps
    (h : gmap loc lsp.CompletionItem) (items : list loc) :
  Forall (allocated h) items ->
  exists h',
    matchCompletionItems items [] h = (Ok items, h') /\
    Forall (cleared h') items /\
    (forall item, lsp.InsertText <$> (h' !! item) = lsp.InsertText <$> (h !! item)) /\
    (forall item, lsp.Score <$> (h' !! item) = lsp.Score <$> (h !! item)) /\
    (forall item, ~ In item items -> h' !! item = h !! item).
Proof.
  intros Hall. destruct (clearMatches_returns items h Hall) as (h' & Hrun & _).
  exists h'. destruct (clearMatches_frame _ _ _ _ Hrun) as (Ht & Hs & Hf).
  split; [|split; [by eapply clearMatches_clears|by repeat split]].
  unfold matchCompletionItems, mbind, M_bind. simpl. by rewrite Hrun.
Qed.

Lemma spec_insert_perm (score : loc -> Z) new result :
  Permutation (spec_insert score new result) (new :: result).
Proof.
  induction result as [|e rest IH]; simpl; [done|].
  destruct (score e <=? score new); [|done].
  rewrite IH. apply perm_swap.
Qed.

Lemma fold_spec_insert_perm (score : loc -> Z) items :
  forall acc,
    Permutation (fold_left (fun result c => spec_insert score c result) items acc)
      (acc ++ items).
Proof.
  induction items as [|c items IH]; intros acc; simpl.
  - by rewrite app_nil_r.
  - rewrite IH, spec_insert_perm. by rewrite <- Permutation_middle.
Qed.

Lemma filter_none {A} (f : A -> bool) (l : list A) :
  (forall a, In a l -> f a = false) -> List.filter f l = [].
Proof.
  induction l as [|a l IH]; intros H; [done|]. simpl.
  rewrite (H a) by (by left). apply IH. intros b Hb. apply H. by right.
Qed.

(** In a sorted result the new entry lands behind the entries of its own
    score. *)
Lemma spec_insert_ties (score : loc -> Z) (s : Z) new result :
  StronglySorted (byScore score) result ->
  List.filter (fun c => score c =? s) (spec_insert score new result) =
  List.filter (fun c => score c =? s) result ++
  (if score new =? s then [new] else []).
Proof.
  induction 1 as [|e rest Hs IH Hall]; simpl; [done|].
  destruct (Z.leb_spec (score e) (score new)); simpl.
  - destruct (score e =? s); [by rewrite IH|exact IH].
  - destruct (Z.eqb_spec (score new) s) as [Hnew|Hnew].
    + assert (Hnone : List.filter (fun c => score c =? s) (e :: rest) = []).
      { apply filter_none. intros c [<-|Hc]; apply Z.eqb_neq; [lia|].
        eapply List.Forall_forall in Hall; [|exact Hc].
        unfold byScore in Hall. lia. }
      simpl in Hnone. by rewrite Hnone.
    + by rewrite app_nil_r.
Qed.

Lemma fold_spec_insert_ties (score : loc -> Z) (s : Z) items :
  forall acc,
    StronglySorted (byScore score) acc ->
    List.filter (fun c => score c =? s)
      (fold_left (fun result c => spec_insert score c result) items acc) =
    List.filter (fun c => score c =? s) acc ++
    List.filter (fun c => score c =? s) items.
Proof.
  induction items as [|c items IH]; intros acc Hs; simpl.
  - by rewrite app_nil_r.
  - rewrite IH by (by apply spec_insert_sorted).
    rewrite spec_insert_ties by done.
    destruct (score c =? s); by rewrite <- app_assoc.
Qed.

(** X4. For a prefix that is not empty and a list without nil pointers,
    the result is a rearrangement of the candidates that match: each of
    them is in the result as often as in the list, and nothing else is. *)
Theorem matchCompletionItems_permutation
    (h : gmap loc lsp.CompletionItem) (items : list loc) (word : list rune) :
  word <> [] ->
  Forall (allocated h) items ->
  exists res h',
    matchCompletionItems items word h = (Ok res, h') /\
    Permutation res
      (List.filter (fun c => matchFloor <=? matchScoreOf h word c) items).
Proof.
  intros Hword Hall.
  pose proof (scores_matchScoreOf word h) as Hsc.
  destruct (rank_returns word _ items [] h Hsc) as (res & h' & Hrun);
    [constructor|exact Hall|].
  destruct (rank_spec word _ items [] h res h' Hsc) as (Hres & _);
    [constructor|done|].
  exists res, h'. unfold matchCompletionItems. rewrite (len_nonempty _ Hword).
  split; [done|]. rewrite Hres. apply (fold_spec_insert_perm _ _ []).
Qed.

(** X5. The ranking is stable: for a prefix that is not empty and a list
    without nil pointers, the candidates of any one score stand in the
    result in the order they had in the list. *)
Theorem matchCompletionItems_stable
    (h : gmap loc lsp.CompletionItem) (items : list loc) (word : list rune)
    (s : Z) :
  word <> [] ->
  Forall (allocated h) items ->
  matchFloor <= s ->
  exists res h',
    matchCompletionItems items word h = (Ok res, h') /\
    List.filter (fun c => matchScoreOf h word c =? s) res =
    List.filter (fun c => matchScoreOf h word c =? s) items.
Proof.
  intros Hword Hall Hs.
  pose proof (scores_matchScoreOf word h) as Hsc.
  destruct (rank_returns word _ items [] h Hsc) as (res & h' & Hrun);
    [constructor|exact Hall|].
  destruct (rank_spec word _ items [] h res h' Hsc) as (Hres & _);
    [constructor|done|].
  exists res, h'. unfold matchCompletionItems. rewrite (len_nonempty _ Hword).
  split; [done|]. rewrite Hres, fold_spec_insert_ties by constructor. simpl.
  clear -Hs. induction items as [|c items IH]; [done|]. simpl.
  destruct (Z.leb_spec matchFloor (matchScoreOf h word c)); simpl.
  - destruct (matchScoreOf h word c =? s); by rewrite IH.
  - destruct (Z.eqb_spec (matchScoreOf h word c) s); [lia|exact IH].
Qed.

(** *** More on the word scan *)

Lemma ident_range (rs : list rune) (b n : nat) :
  Forall (fun r => UtfClass r = 2) (drop b (take n rs)) ->
  forall i r, (b <= i < n)%nat -> rs !! i = Some r -> UtfClass r = 2.
Proof.
  intros Hall i r Hi Hr. rewrite Forall_lookup in Hall.
  apply (Hall (i - b)%nat r).
  rewrite lookup_drop, lookup_take_lt by lia.
  by replace (b + (i - b))%nat with i by lia.
Qed.

(** X6. Every column inside a word has the same word start: when the scan
    from a column returns a boundary and a prefix, the scan from any column
    between the boundary and that column returns the same boundary, and the
    part of the prefix up to the nearer column. *)
Theorem getWord_same_start (view : plugin.View) (row col col' : Z)
    (line : plugin.Line) (boundary : Z) (word : list rune) :
  index (plugin.Lines (plugin.Cache view)) row = Ok (Some line) ->
  col < len (runes (plugin.Text line)) ->
  getWord view row col = Ok (boundary, word) ->
  boundary <= col' <= col ->
  getWord view row col' = Ok (boundary, take (Z.to_nat (col' + 1 - boundary)) word).
Proof using Type.
  intros Hrow Hcol Hrun Hcol'. unfold getWord in *. rewrite Hrow in *. simpl in *.
  set (rs := runes (plugin.Text line)) in *. unfold len in Hcol.
  destruct (getWord_loop_scan rs (Z.to_nat (col + 1)) [])
    as (b & Hb & Heq & Hall & Hstop); [lia|].
  rewrite Heq, app_nil_r in Hrun. injection Hrun as <- <-.
  destruct (getWord_loop_scan rs (Z.to_nat (col' + 1)) [])
    as (b' & Hb' & Heq' & Hall' & Hstop'); [lia|].
  rewrite Heq', app_nil_r.
  assert (b' = b) as ->.
  { destruct (Nat.lt_trichotomy b' b) as [Hlt|[Heqb|Hgt]]; [|done|].
    - destruct Hstop as [->|(c & r & -> & Hr & Hc)]; [lia|].
      destruct Hc. apply (ident_range rs b' (Z.to_nat (col' + 1)) Hall' c r); [lia|done].
    - destruct Hstop' as [->|(c & r & -> & Hr & Hc)]; [lia|].
      destruct Hc. apply (ident_range rs b (Z.to_nat (col + 1)) Hall c r); [lia|done]. }
  f_equal. f_equal.
  rewrite take_drop_commute, take_take. f_equal. f_equal. lia.
Qed.

(** *** The two lengths of a text *)

Lemma decode_length (fuel : nat) :
  forall bs, (length (decode fuel bs) <= fuel)%nat.
Proof.
  induction fuel as [|fuel IH]; intros bs; [simpl; lia|].
  destruct bs as [|b bs]; [simpl; lia|].
  change (decode (S fuel) (b :: bs))
    with (let '(r, w) := DecodeRune (b :: bs) in r :: decode fuel (drop w (b :: bs))).
  destruct (DecodeRune (b :: bs)) as [r w].
  pose proof (IH (drop w (b :: bs))). cbn [length]. lia.
Qed.

Lemma runes_String (a : ascii) (s : string) :
  exists r rest, runes (String a s) = r :: rest.
Proof.
  unfold runes, bytes. cbn [String.length list_ascii_of_string map decode].
  destruct (DecodeRune _) as [r w]. eauto.
Qed.


(** X13. The rune slice of a text is never longer than the text in bytes,
    it is empty only for the empty text, and a text of one byte has exactly
    one rune: the index [[]rune(text)[0]] taken when [len(text) == 1] is
    always in range. *)
Theorem runes_length (s : string) :
  len (runes s) <= Z.of_nat (String.length s) /\
  (runes s = [] <-> s = ""%string) /\
  (String.length s = 1%nat -> exists r, index (runes s) 0 = Ok r /\ runes s = [r]).
Proof.
  split; [|split].
  - unfold len, runes. pose proof (decode_length (String.length s) (bytes s)). lia.
  - split; [|by intros ->].
    destruct s as [|a s]; [done|].
    destruct (runes_String a s) as (r & rest & ->). discriminate.
  - destruct s as [|a [|a' s]]; try discriminate. intros _.
    unfold runes, bytes. cbn [String.length list_ascii_of_string map decode].
    destruct (DecodeRune _) as [r w]. by exists r.
Qed.

(** *** Counting what an edit sends *)




Lemma sendsAtMost_emit (kind : Event -> bool) (n : nat) (evs : list Event) :
  (length (List.filter kind evs) <= n)%nat ->
  sendsAtMost kind n (modify (emit evs)).
Proof. intros H p. by exists evs. Qed.









(** *** More on the completion state machine *)

(** X8. A pure deletion while no candidates are held leaves the session
    Idle, sends the empty list to every listener and nothing to the backend,
    whatever was deleted. *)
Theorem complete_idle_deletion (p : Plugin) (lspClient : lsp.Client)
    (view : plugin.View) (deletedText : string) (startRow startCol : Z) :
  completionItems p = [] ->
  complete lspClient view "" deletedText startRow startCol p = (Ok tt, afterReset p).
Proof.
  intros Hidle. unfold complete, getCompletionItems, mbind, M_bind, get. simpl.
  rewrite Hidle. simpl. rewrite Bool.andb_false_r. simpl. rewrite Hidle. simpl.
  rewrite notifyCompletion_run. unfold afterReset.
  by rewrite (set_completionItems_nil p Hidle).
Qed.


(** *** More on the change synchroniser *)

(** X14. An update for a view the plugin does not hold is answered with
    nil and changes nothing. An accepted update for a view whose language
    has no backend is applied to the view and then answered with nil, with
    nothing sent to anyone: the text model has moved on without a change
    notification. *)
Theorem handle_missing_registry_entry (p : Plugin) (r : Update) :
  (views p !! ViewID r = None -> handle (UpdateRequest r) p = (RetNil, p)) /\
  (forall view view' d,
      views p !! ViewID r = Some view ->
      ApplyUpdate view r = (view', d) ->
      changed d = true ->
      lsp p !! plugin.Syntax view' = None ->
      handle (UpdateRequest r) p =
      (RetNil, set_views (<[ViewID r := view']> (views p)) p)).
Proof.
  split.
  - intros H. unfold handle, handleUpdate, mbind, M_bind, get. simpl. by rewrite H.
  - intros view view' d Hview Happly Hch Hnone.
    unfold handle, handleUpdate, mbind, M_bind, get. simpl.
    rewrite Hview. simpl. rewrite Happly, Hch. simpl. by rewrite Hnone.
Qed.



Lemma keepsRegistries_step {A} (m : M Plugin A) :
  (forall p, lsp (snd (m p)) = lsp p /\ conns (snd (m p)) = conns p /\
             views (snd (m p)) = views p) ->
  keepsRegistries m.
Proof. done. Qed.







(** *** Fetching and the heap of items *)






(** *** The flag completionShown *)

Lemma complete_ends_notifying lspClient view text deletedText startRow startCol
    (p p' : Plugin) :
  complete lspClient view text deletedText startRow startCol p = (Ok tt, p') ->
  exists items q, notifyCompletion items q = (Ok tt, p').
Proof.
  unfold complete, mbind, M_bind, get. simpl.
  match goal with |- context [if ?b then modify _ else _] => destruct b end; simpl.
  all: destruct (1 <? len (runes text)); [eauto|].
  all: destruct (0 <? len (runes text)); simpl.
  all: try (unfold liftO; destruct (index _ _) as [r|]; [|discriminate]; simpl;
            destruct (negb (r =? 46) && negb (UtfClass r =? 2)); [eauto|]).
  all: match goal with
       | |- context [getCompletionItems ?c ?v ?t ?sr ?sc ?q] =>
         destruct (getCompletionItems c v t sr sc q) as [[items|] q']
       end; [eauto|discriminate].
Qed.

(** X11. After an edit that is handled to the end, the flag
    [completionShown] says whether the list last sent to the listeners had
    any item: the last messages of the trace are that list, sent to each
    listener, and the flag is set exactly when the list is not empty. *)
Theorem complete_shown lspClient view text deletedText startRow startCol
    (p p' : Plugin) :
  complete lspClient view text deletedText startRow startCol p = (Ok tt, p') ->
  exists items before,
    trace p' = before ++
      map (fun conn => NotifyCompletion conn (map (fun item => heap p' !! item) items))
        (conns p') /\
    (completionShown p' = true <-> items <> []).
Proof.
  intros Hrun.
  destruct (complete_ends_notifying _ _ _ _ _ _ _ _ Hrun) as (items & q & Hn).
  rewrite notifyCompletion_run in Hn. injection Hn as <-.
  exists items, (trace q). split; [done|]. simpl.
  destruct items; [done|]. unfold len. simpl. split; [done|reflexivity].
Qed.

(** *** No panic on a position inside the line *)







(** *** The initialization arm *)

Lemma grows_refl (s : InitState) : grows s s.
Proof. repeat split; auto. exists []. by rewrite app_nil_r. Qed.

Lemma grows_trans (s1 s2 s3 : InitState) : grows s1 s2 -> grows s2 s3 -> grows s1 s3.
Proof.
  intros (A1 & A2 & A3 & A4 & A5 & A6 & A7 & n1 & A8)
         (B1 & B2 & B3 & B4 & B5 & B6 & B7 & n2 & B8).
  repeat split; auto; try congruence.
  exists (n1 ++ n2). by rewrite B8, A8, app_assoc.
Qed.

Lemma is_Some_insert {V} (m : gmap string V) (k k' : string) (v : V) :
  is_Some (m !! k') -> is_Some (<[k := v]> m !! k').
Proof.
  intros H. destruct (decide (k = k')) as [->|Hne].
  - by rewrite lookup_insert_eq.
  - by rewrite lookup_insert_ne.
Qed.

Lemma insert_keeps_Some {V} (m : gmap string V) (k k' : string) (v c : V) :
  m !! k = None -> m !! k' = Some c -> <[k := v]> m !! k' = Some c.
Proof.
  intros Hk Hk'. rewrite lookup_insert_ne; [done|]. intros ->. congruence.
Qed.

(** One turn of the loop, whatever its end. *)
Lemma initBuffer_spec (buf : buffer.Info) (s : InitState) :
  exists new,
    grows s (snd (initBuffer buf s)) /\
    turnOf buf s (snd (initBuffer buf s)) new (fst (initBuffer buf s)).
Proof.
  unfold initBuffer, getClient, mbind, M_bind, get, liftO, turnOf. simpl.
  set (syntax := trimDot (Ext (buffer.Path buf))).
  unfold index. simpl.
  destruct (buffer.Views buf) as [|viewID others] eqn:Hviews; simpl.
  { exists []. split; [apply grows_refl|]. rewrite app_nil_r.
    split; [done|]. split; [by left|done]. }
  destruct (lspMutex s) eqn:Hlock; simpl.
  { exists []. rewrite app_nil_r. split.
    - repeat split; auto; [|exists []; by rewrite app_nil_r].
      intros id. apply is_Some_insert.
    - split; [done|]. split; [by left|done]. }
  destruct (lsp (plug s) !! syntax) as [client|] eqn:Hclient; simpl.
  - destruct (ReadFile (buffer.Path buf)) as [content|] eqn:Hread; simpl.
    + exists [CallDidOpen client (buffer.Path buf) content].
      destruct (DidOpen (calls s) client (buffer.Path buf) content); simpl.
      all: split;
        [repeat split; auto; [|by eexists];
         intros id Hid; by do 2 apply is_Some_insert|].
      all: split; [done|]; split; [by left|]; [].
      * intros _. split; [done|]. split; [by rewrite Hclient|].
        exists viewID, content. repeat split; auto.
        by rewrite lookup_insert_eq.
      * done.
    + exists []. rewrite app_nil_r. split.
      * repeat split; auto; [|exists []; by rewrite app_nil_r].
        intros id. apply is_Some_insert.
      * split; [done|]. split; [by left|done].
  - destruct (NewClient (calls s) syntax) as [c0|] eqn:Hnew; simpl.
    2:{ exists [CallNewClient syntax]. split.
        - repeat split; auto; [|by eexists]. intros id. apply is_Some_insert.
        - split; [done|]. split; [by right|done]. }
    destruct Getwd as [dir|] eqn:Hwd; simpl.
    2:{ exists [CallNewClient syntax]. split.
        - repeat split; auto; [|by eexists]. intros id. apply is_Some_insert.
        - split; [done|]. split; [by right|done]. }
    destruct (Initialize (calls s ++ [CallNewClient syntax]) c0 dir) as [c1|] eqn:Hinit;
      simpl.
    2:{ exists [CallNewClient syntax; CallInitialize c0 dir]. split.
        - repeat split; auto; [|eexists; simpl; by rewrite <- app_assoc].
          intros id. apply is_Some_insert.
        - split; [simpl; by rewrite <- app_assoc|]. split; [by right|done]. }
    destruct (ReadFile (buffer.Path buf)) as [content|] eqn:Hread; simpl.
    + exists [CallNewClient syntax; CallInitialize c0 dir;
              CallDidOpen c1 (buffer.Path buf) content].
      match goal with
      | |- context [DidOpen ?a ?b ?c ?d] => destruct (DidOpen a b c d)
      end; simpl.
      all: split;
        [repeat split; auto; [| |eexists; simpl; by rewrite <- !app_assoc];
         [intros k c Hk; by apply insert_keeps_Some
         |intros id Hid; by do 2 apply is_Some_insert]|].
      all: split; [simpl; by rewrite <- !app_assoc|]; split; [by right|]; [].
      * intros _. split; [done|]. split; [by rewrite lookup_insert_eq|].
        exists viewID, content. repeat split; auto.
        by rewrite lookup_insert_eq.
      * done.
    + exists [CallNewClient syntax; CallInitialize c0 dir]. split.
      * repeat split; auto; [| |eexists; simpl; by rewrite <- !app_assoc].
        -- intros k c Hk. by apply insert_keeps_Some.
        -- intros id. apply is_Some_insert.
      * split; [simpl; by rewrite <- !app_assoc|]. split; [by right|done].
Qed.

Lemma initBuffers_grows (bufs : list buffer.Info) :
  forall s, grows s (snd (initBuffers bufs s)).
Proof.
  induction bufs as [|buf rest IH]; intros s; [apply grows_refl|].
  simpl. unfold mbind, M_bind.
  destruct (initBuffer_spec buf s) as (new & Hg & _).
  destruct (initBuffer buf s) as [[[| |]|] s1]; simpl in *; try done.
  eapply grows_trans; [exact Hg|apply IH].
Qed.

(** X16. Whatever the buffers and however the call ends, the
    initialization arm never replaces or removes a backend client and never
    removes a view, and it leaves the listeners and the completion session
    (candidates, flag, items, trace) untouched. *)
Theorem handleInitialization_grows (bufs : list buffer.Info) (s : InitState) :
  let s' := snd (handleInitialization bufs s) in
  (forall syntax c, lsp (plug s) !! syntax = Some c ->
                    lsp (plug s') !! syntax = Some c) /\
  (forall id, is_Some (views (plug s) !! id) -> is_Some (views (plug s') !! id)) /\
  conns (plug s') = conns (plug s) /\
  completionItems (plug s') = completionItems (plug s) /\
  completionShown (plug s') = completionShown (plug s) /\
  heap (plug s') = heap (plug s) /\
  trace (plug s') = trace (plug s).
Proof.
  pose proof (initBuffers_grows bufs s) as H. unfold handleInitialization.
  destruct (initBuffers bufs s) as [[[| |]|] s1]; simpl in *;
    destruct H as (H1 & H2 & H3 & H4 & H5 & H6 & H7 & _); by repeat split.
Qed.

Lemma handleInitialization_blocked (buf : buffer.Info) (rest : list buffer.Info)
    (s : InitState) :
  lspMutex s = true -> buffer.Views buf <> [] ->
  fst (handleInitialization (buf :: rest) s) = None.
Proof.
  intros Hlock Hviews. unfold handleInitialization. simpl.
  unfold initBuffer, mbind, M_bind, get, liftO, index. simpl.
  destruct (buffer.Views buf) as [|viewID others]; [done|]. simpl.
  by rewrite Hlock.
Qed.

(** X17. When the mutex is free, the first buffer has a view and its
    language has no client yet, a failure to bring up the backend (creating
    the client, finding the working directory, or the handshake) makes the
    arm return nil with the mutex still held and no client registered; the
    buffers after it are not looked at, and every later initialization of a
    buffer with a view waits on the mutex for ever. *)
Theorem handleInitialization_backend_failure (buf : buffer.Info)
    (rest : list buffer.Info) (s : InitState) :
  lspMutex s = false ->
  buffer.Views buf <> [] ->
  lsp (plug s) !! trimDot (Ext (buffer.Path buf)) = None ->
  backendUnavailable s (trimDot (Ext (buffer.Path buf))) ->
  exists s',
    handleInitialization (buf :: rest) s = (Some RetNil, s') /\
    lspMutex s' = true /\
    lsp (plug s') = lsp (plug s) /\
    (forall buf' rest', buffer.Views buf' <> [] ->
       fst (handleInitialization (buf' :: rest') s') = None).
Proof.
  intros Hlock Hviews Hnone Hfail.
  assert (H : exists s', handleInitialization (buf :: rest) s = (Some RetNil, s') /\
                         lspMutex s' = true /\ lsp (plug s') = lsp (plug s)).
  { unfold handleInitialization. simpl.
    unfold initBuffer, getClient, mbind, M_bind, get, liftO, index. simpl.
    destruct (buffer.Views buf) as [|viewID others]; [done|]. simpl.
    rewrite Hlock. simpl. rewrite Hnone. simpl.
    unfold backendUnavailable in Hfail.
    destruct (NewClient (calls s) _) as [c0|]; simpl; [|eauto].
    destruct Getwd as [dir|]; simpl; [|eauto].
    rewrite Hfail. simpl. eauto. }
  destruct H as (s' & Hrun & Hheld & Hlsp). exists s'.
  repeat split; [done|done|done|].
  intros buf' rest' Hv. by apply handleInitialization_blocked.
Qed.

Lemma initBuffers_Next (bufs : list buffer.Info) :
  forall s s', initBuffers bufs s = (Ok Next, s') ->
    (bufs <> [] -> lspMutex s' = false) /\
    exists new,
      calls s' = calls s ++ new /\
      Forall2 (fun buf oc => fst oc = buffer.Path buf /\
                             ReadFile (buffer.Path buf) = Some (snd oc))
        bufs (openedOf new) /\
      forall buf, In buf bufs ->
        is_Some (lsp (plug s') !! trimDot (Ext (buffer.Path buf))) /\
        exists viewID, buffer.Views buf !! 0%nat = Some viewID /\
                       is_Some (views (plug s') !! viewID).
Proof.
  induction bufs as [|buf rest IH]; intros s s' Hrun.
  - injection Hrun as <-. split; [done|]. exists []. rewrite app_nil_r.
    split; [done|]. split; [constructor|]. intros buf [].
  - simpl in Hrun. unfold mbind, M_bind in Hrun.
    destruct (initBuffer_spec buf s) as (new1 & _ & Hcalls1 & _ & Hnext).
    destruct (initBuffer buf s) as [[[| |]|] s1]; simpl in *; try discriminate.
    destruct (Hnext eq_refl) as (Hfree & Hclient & viewID & content & Hv & Hread & Hop & Hview).
    destruct (IH _ _ Hrun) as (Hlock & new2 & Hcalls2 & Hall & Hreg).
    pose proof (initBuffers_grows rest s1) as Hg. rewrite Hrun in Hg. simpl in Hg.
    destruct Hg as (Hlsp & Hviews & _).
    split.
    { intros _. destruct rest as [|b rest']; [by injection Hrun as <-|by apply Hlock]. }
    exists (new1 ++ new2). split; [by rewrite Hcalls2, Hcalls1, app_assoc|].
    split.
    { unfold openedOf in *. rewrite flat_map_app, Hop. simpl. by constructor. }
    intros b [<-|Hb]; [|by apply Hreg].
    split.
    + destruct Hclient as [c Hc]. exists c. by apply Hlsp.
    + exists viewID. split; [done|]. by apply Hviews.
Qed.

(** X18. When the arm returns 0 for a list of buffers that is not empty,
    the mutex is free again, and every buffer of the list has its first view
    registered and a client registered for its language. *)
Theorem handleInitialization_success (bufs : list buffer.Info) (s s' : InitState) :
  handleInitialization bufs s = (Some (RetInt 0), s') ->
  bufs <> [] ->
  lspMutex s' = false /\
  forall buf, In buf bufs ->
    is_Some (lsp (plug s') !! trimDot (Ext (buffer.Path buf))) /\
    exists viewID, buffer.Views buf !! 0%nat = Some viewID /\
                   is_Some (views (plug s') !! viewID).
Proof.
  unfold handleInitialization. intros Hrun Hne.
  destruct (initBuffers bufs s) as [[[| |]|] s1] eqn:Hb; try discriminate.
  injection Hrun as <-.
  destruct (initBuffers_Next _ _ _ Hb) as (Hlock & new & _ & _ & Hreg).
  split; [by apply Hlock|exact Hreg].
Qed.

(** X19. When the arm returns 0, the backends were told of the buffers one
    by one: the [DidOpen] calls it made are one for each buffer, in the order
    of the list, each with the path of its buffer and the content read from
    that path. *)
Theorem handleInitialization_opens (bufs : list buffer.Info) (s s' : InitState) :
  handleInitialization bufs s = (Some (RetInt 0), s') ->
  exists new,
    calls s' = calls s ++ new /\
    Forall2 (fun buf oc => fst oc = buffer.Path buf /\
                           ReadFile (buffer.Path buf) = Some (snd oc))
      bufs (openedOf new).
Proof.
  unfold handleInitialization. intros Hrun.
  destruct (initBuffers bufs s) as [[[| |]|] s1] eqn:Hb; try discriminate.
  injection Hrun as <-.
  destruct (initBuffers_Next _ _ _ Hb) as (_ & new & Hcalls & Hall & _).
  by exists new.
Qed.

Lemma initBuffers_cut (l1 l2 : list buffer.Info) :
  forall s o s', initBuffers l1 s = (o, s') -> o <> Ok Next ->
    initBuffers (l1 ++ l2) s = (o, s').
Proof.
  induction l1 as [|buf rest IH]; intros s o s' Hrun Hne.
  - by injection Hrun as <- <-.
  - simpl in *. unfold mbind, M_bind in *.
    destruct (initBuffer buf s) as [[[| |]|] s1]; try done.
    by apply IH.
Qed.

(** X20. A batch stops at the first buffer that fails: when the arm does
    not return 0 for a list of buffers, it does the same, with the same
    final state, whatever buffers are listed after them; those are neither
    registered nor opened. *)
Theorem handleInitialization_cut (l1 l2 : list buffer.Info) (s s' : InitState)
    (r : option Reply) :
  handleInitialization l1 s = (r, s') ->
  r <> Some (RetInt 0) ->
  handleInitialization (l1 ++ l2) s = (r, s').
Proof.
  unfold handleInitialization. intros Hrun Hne.
  destruct (initBuffers l1 s) as [o s1] eqn:Hb.
  assert (Ho : o <> Ok Next).
  { intros ->. by injection Hrun as <- <-. }
  by rewrite (initBuffers_cut l1 l2 s o s1 Hb Ho).
Qed.

Lemma initBuffers_created (bufs : list buffer.Info) :
  forall s, exists new,
    calls (snd (initBuffers bufs s)) = calls s ++ new /\
    List.NoDup (createdOf new) /\
    forall syntax, In syntax (createdOf new) -> lsp (plug s) !! syntax = None.
Proof.
  induction bufs as [|buf rest IH]; intros s.
  - exists []. simpl. rewrite app_nil_r. repeat split; [apply List.NoDup_nil|by intros].
  - simpl. unfold mbind, M_bind.
    destruct (initBuffer_spec buf s) as (new1 & Hg & Hcalls1 & Hcreated & Hnext).
    assert (Hone : List.NoDup (createdOf new1) /\
                   forall syntax, In syntax (createdOf new1) ->
                                  lsp (plug s) !! syntax = None).
    { destruct Hcreated as [->|[-> Hnone]].
      - split; [apply List.NoDup_nil|by intros].
      - split; [repeat constructor; by intros []|]. by intros syn [<-|[]]. }
    destruct (initBuffer buf s) as [[[| |]|] s1]; simpl in *;
      try (exists new1; by split).
    destruct (IH s1) as (new2 & Hcalls2 & Hnd2 & Hnone2).
    destruct (Hnext eq_refl) as (_ & [c Hc] & _).
    destruct Hg as (Hlsp & _).
    assert (Hback : forall syntax, lsp (plug s1) !! syntax = None ->
                                   lsp (plug s) !! syntax = None).
    { intros syn Hsyn. destruct (lsp (plug s) !! syn) as [c'|] eqn:E; [|done].
      by rewrite (Hlsp _ _ E) in Hsyn. }
    exists (new1 ++ new2). split; [by rewrite Hcalls2, Hcalls1, app_assoc|].
    unfold createdOf in *. rewrite flat_map_app. split.
    + destruct Hone as [Hnd1 Hnone1].
      destruct Hcreated as [E|[E Hnone]]; rewrite E in *; [done|].
      simpl. apply List.NoDup_cons; [|done].
      intros Hin. specialize (Hnone2 _ Hin). congruence.
    + intros syn Hin. apply in_app_or in Hin as [Hin|Hin].
      * by apply Hone.
      * by apply Hback, Hnone2.
Qed.

(** X21. In one call the arm creates at most one client for a language,
    and none for a language that already has one: the syntaxes of its
    [NewClient] calls are pairwise distinct and had no client when the call
    began. *)
Theorem handleInitialization_creates_once (bufs : list buffer.Info) (s : InitState) :
  exists new,
    calls (snd (handleInitialization bufs s)) = calls s ++ new /\
    List.NoDup (createdOf new) /\
    forall syntax, In syntax (createdOf new) -> lsp (plug s) !! syntax = None.
Proof.
  destruct (initBuffers_created bufs s) as (new & Hcalls & Hnd & Hnone).
  exists new. unfold handleInitialization.
  by destruct (initBuffers bufs s) as [[[| |]|] s1].
Qed.
End Engine.

(** ** The properties at concrete inputs *)

Lemma getWord_scan_witness :
  index (plugin.Lines (plugin.Cache (oneLineView "foo.bar"))) 0
    = Ok (Some {| plugin.Text := "foo.bar" |}) /\
  6 < len (runes "foo.bar") /\
  (forall r, In r (ascii_runes "foobar") -> sampleClass r = 2) /\
  sampleClass 46 <> 2 /\
  (exists boundary word,
      getWord sampleClass (oneLineView "foo.bar") 0 6 = Ok (boundary, word) /\
      0 <= boundary /\ boundary <= Z.max 0 (6 + 1) /\
      word = drop (Z.to_nat boundary) (take (Z.to_nat (6 + 1)) (runes "foo.bar")) /\
      Forall (fun r => sampleClass r = 2) word /\
      (boundary = 0 \/
       exists r, index (runes "foo.bar") (boundary - 1) = Ok r /\ sampleClass r <> 2)) /\
  getWord sampleClass (oneLineView "foo.bar") 0 6 = Ok (4, ascii_runes "bar").
Proof.
  assert (Hletters : forall r, In r (ascii_runes "foobar") -> sampleClass r = 2).
  { intros r H. repeat (destruct H as [<-|H]; [reflexivity|]). destruct H. }
  assert (Hdot : sampleClass 46 <> 2) by (vm_compute; discriminate).
  split; [reflexivity|]. split; [reflexivity|].
  split; [exact Hletters|]. split; [exact Hdot|].
  split.
  - apply (proj1 (getWord_scan sampleClass) (oneLineView "foo.bar") 0 6
             {| plugin.Text := "foo.bar" |}); reflexivity.
  - apply (proj2 (getWord_scan sampleClass)); [exact Hletters|exact Hdot].
Defined.

(** C6, as worded: at column 7 of "foo.bar" the scan reads index 7 of seven
    runes and panics, whatever the classifier; it does not yield "bar". *)
Lemma getWord_foo_bar_column_7 :
  ~ (exists UtfClass : rune -> Z,
        getWord UtfClass (oneLineView "foo.bar") 0 7 = Ok (4, ascii_runes "bar")).
Proof. intros [UtfClass H]. discriminate H. Qed.

Lemma getWord_total_iff_witness :
  index (plugin.Lines (plugin.Cache (oneLineView "foo.bar"))) 0
    = Ok (Some {| plugin.Text := "foo.bar" |}) /\
  (getWord sampleClass (oneLineView "foo.bar") 0 7 <> Panic <->
   7 < len (runes "foo.bar")) /\
  (7 < 0 -> getWord sampleClass (oneLineView "foo.bar") 0 7 = Ok (0, [])) /\
  (len (runes "foo.bar") <= 7 ->
   index (runes "foo.bar") 7 = Panic /\
   getWord sampleClass (oneLineView "foo.bar") 0 7 = Panic).
Proof.
  split; [reflexivity|].
  apply (getWord_total_iff sampleClass (oneLineView "foo.bar") 0 7
           {| plugin.Text := "foo.bar" |}).
  reflexivity.
Defined.

(** C10, as worded: the scan returns at column -1, which is outside
    [0 <= col < len]. *)
Lemma getWord_returns_below_zero :
  ~ (forall (UtfClass : rune -> Z) (view : plugin.View) (row col : Z)
            (line : plugin.Line),
        index (plugin.Lines (plugin.Cache view)) row = Ok (Some line) ->
        getWord UtfClass view row col <> Panic ->
        0 <= col < len (runes (plugin.Text line))).
Proof.
  intros H.
  destruct (H sampleClass (oneLineView "foo.bar") 0 (-1)
              {| plugin.Text := "foo.bar" |}) as [Hle _];
    [reflexivity|discriminate|lia].
Qed.

Lemma matchCompletionItems_ranking_witness :
  ascii_runes "fo" <> [] /\
  (forall item, In item [1%positive; 2%positive; 3%positive] ->
                is_Some (sampleHeap !! item)) /\
  exists res h',
    matchCompletionItems sampleScore [1%positive; 2%positive; 3%positive]
      (ascii_runes "fo") sampleHeap = (Ok res, h') /\
    Sorted Z.le (map (storedScore h') res) /\
    (forall item, In item res <->
       In item [1%positive; 2%positive; 3%positive] /\
       matchFloor <= matchScoreOf sampleScore sampleHeap (ascii_runes "fo") item) /\
    (forall item, In item res ->
       storedScore h' item = matchScoreOf sampleScore sampleHeap (ascii_runes "fo") item) /\
    res = spec_rank (matchScoreOf sampleScore sampleHeap (ascii_runes "fo"))
            [1%positive; 2%positive; 3%positive].
Proof.
  assert (Hw : ascii_runes "fo" <> []) by discriminate.
  assert (Hall : forall item, In item [1%positive; 2%positive; 3%positive] ->
                   is_Some (sampleHeap !! item)).
  { intros item H. repeat (destruct H as [<-|H]; [eexists; reflexivity|]).
    destruct H. }
  split; [exact Hw|]. split; [exact Hall|].
  exact (matchCompletionItems_ranking sampleScore sampleHeap _ _ Hw Hall).
Defined.

Example matchCompletionItems_fo :
  fst (matchCompletionItems sampleScore [1%positive; 2%positive; 3%positive]
         (ascii_runes "fo") sampleHeap) = Ok [3%positive; 1%positive].
Proof. reflexivity. Qed.

Lemma matchCompletionItems_idempotent_witness :
  let first_pass :=
    matchCompletionItems sampleScore [1%positive; 2%positive; 3%positive]
      (ascii_runes "fo") sampleHeap in
  first_pass = (Ok [3%positive; 1%positive], snd first_pass) /\
  matchCompletionItems sampleScore [3%positive; 1%positive] (ascii_runes "fo")
    (snd first_pass) = (Ok [3%positive; 1%positive], snd first_pass).
Proof.
  intros first_pass.
  assert (H : first_pass = (Ok [3%positive; 1%positive], snd first_pass))
    by reflexivity.
  split; [exact H|].
  exact (matchCompletionItems_idempotent sampleScore sampleHeap (snd first_pass)
           [1%positive; 2%positive; 3%positive] [3%positive; 1%positive]
           (ascii_runes "fo") H).
Defined.

Lemma complete_bulk_insert_witness :
  1 < len (runes "foo") /\
  exists p',
    complete sampleClass sampleScore sampleCompletion (goClient 2)
      (oneLineView "foo") "foo" "" 0 0
      (samplePlugin 2 "foo" [1%positive; 2%positive; 3%positive]) = (Ok tt, p') /\
    p' = afterReset (samplePlugin 2 "foo" [1%positive; 2%positive; 3%positive]) /\
    completionItems p' = [] /\
    trace p' = [NotifyCompletion "ui" []] /\
    Forall (fun e => isQuery e = false) [NotifyCompletion "ui" []].
Proof.
  split; [reflexivity|].
  apply (complete_bulk_insert sampleClass sampleScore sampleCompletion
           (samplePlugin 2 "foo" [1%positive; 2%positive; 3%positive])
           (goClient 2) (oneLineView "foo") "foo" "" 0 0).
  reflexivity.
Defined.

Lemma complete_punctuation_witness :
  runes " " = [32] /\ 32 <> 46 /\ sampleClass 32 <> 2 /\
  completionItems (samplePlugin 2 "fo " [1%positive; 2%positive; 3%positive]) <> [] /\
  exists p',
    complete sampleClass sampleScore sampleCompletion (goClient 2)
      (oneLineView "fo ") " " "" 0 2
      (samplePlugin 2 "fo " [1%positive; 2%positive; 3%positive]) = (Ok tt, p') /\
    p' = afterReset (samplePlugin 2 "fo " [1%positive; 2%positive; 3%positive]) /\
    completionItems p' = [] /\
    trace p' = [NotifyCompletion "ui" []] /\
    Forall (fun e => isQuery e = false) [NotifyCompletion "ui" []].
Proof.
  assert (H1 : runes " " = [32]) by reflexivity.
  assert (H2 : 32 <> 46) by discriminate.
  assert (H3 : sampleClass 32 <> 2) by (vm_compute; discriminate).
  assert (H4 : completionItems
                 (samplePlugin 2 "fo " [1%positive; 2%positive; 3%positive]) <> [])
    by discriminate.
  split; [exact H1|]. split; [exact H2|]. split; [exact H3|]. split; [exact H4|].
  exact (complete_punctuation sampleClass sampleScore sampleCompletion
           (samplePlugin 2 "fo " [1%positive; 2%positive; 3%positive])
           (goClient 2) (oneLineView "fo ") " " "" 0 2 32 H1 H2 H3 H4).
Defined.

Lemma handle_unchanged_witness :
  views (samplePlugin 1 "fo" [1%positive]) !! fst (("v", false) : SampleUpdate)
    = Some (oneLineView "fo") /\
  sampleApply (oneLineView "fo") ("v", false) = (oneLineView "fo", sampleDelta false) /\
  changed (sampleDelta false) = false /\
  exists p',
    handle sampleClass sampleScore SampleUpdate fst sampleApply sampleCompletion
      (UpdateRequest SampleUpdate ("v", false)) (samplePlugin 1 "fo" [1%positive])
    = (RetInt 0, p') /\
    p' = set_views (<["v"%string := oneLineView "fo"]>
                      (views (samplePlugin 1 "fo" [1%positive])))
           (samplePlugin 1 "fo" [1%positive]) /\
    trace p' = trace (samplePlugin 1 "fo" [1%positive]) /\
    completionItems p' = completionItems (samplePlugin 1 "fo" [1%positive]) /\
    completionShown p' = completionShown (samplePlugin 1 "fo" [1%positive]) /\
    heap p' = heap (samplePlugin 1 "fo" [1%positive]) /\
    lsp p' = lsp (samplePlugin 1 "fo" [1%positive]) /\
    conns p' = conns (samplePlugin 1 "fo" [1%positive]) /\
    (forall id, id <> "v"%string ->
       views p' !! id = views (samplePlugin 1 "fo" [1%positive]) !! id).
Proof.
  split; [reflexivity|]. split; [reflexivity|]. split; [reflexivity|].
  apply (handle_unchanged sampleClass sampleScore SampleUpdate fst sampleApply
           sampleCompletion (samplePlugin 1 "fo" [1%positive]) ("v"%string, false)
           (oneLineView "fo") (oneLineView "fo") (sampleDelta false));
    reflexivity.
Defined.

Lemma handle_didChange_witness :
  views (samplePlugin 1 "fo" []) !! fst (("v", true) : SampleUpdate)
    = Some (oneLineView "fo") /\
  changed (snd (sampleApply (oneLineView "fo") ("v", true))) = true /\
  lsp (samplePlugin 1 "fo" [])
    !! plugin.Syntax (fst (sampleApply (oneLineView "fo") ("v", true)))
    = Some (goClient 1) /\
  exists rest,
    trace (snd (handle sampleClass sampleScore SampleUpdate fst sampleApply
                  sampleCompletion (UpdateRequest SampleUpdate ("v", true))
                  (samplePlugin 1 "fo" []))) =
    DidChange (goClient 1)
      {| lsp.TextDocument := {| lsp.URI := "file:///a.go"; lsp.Version := 2 |};
         lsp.ContentChanges := [{| lsp.Range_ := None; lsp.Text := "foo" |}] |}
    :: rest.
Proof.
  split; [reflexivity|]. split; [reflexivity|]. split; [reflexivity|].
  destruct (handle_didChange sampleClass sampleScore SampleUpdate fst sampleApply
              sampleCompletion (samplePlugin 1 "fo" []) ("v"%string, true)
              (oneLineView "fo")
              (fst (sampleApply (oneLineView "fo") ("v"%string, true)))
              (sampleDelta true) (goClient 1)
              eq_refl eq_refl eq_refl eq_refl)
    as (change & rest & Htr & _ & Hfull & _).
  exists rest. rewrite Htr, (Hfull eq_refl). reflexivity.
Defined.

Lemma getCompletionItems_query_fails_witness :
  let p := samplePlugin 2 "f" [] in
  let q := CompletionQuery (goClient 2)
             (paramsAt (oneLineView "f") {| lsp.Line := 0; lsp.Character := 0 |})
             None in
  getCompletionItems sampleClass sampleScore failingCompletion (goClient 2)
    (oneLineView "f") "f" 0 0 p = (Ok [], emit [q] p) /\
  trace (emit [q] p) = trace p ++ [q] /\
  In q [q] /\
  completionItems p = [] /\
  completionItems (emit [q] p) = [] /\
  heap (emit [q] p) = heap p /\
  completionShown (emit [q] p) = completionShown p.
Proof.
  intros p q.
  assert (Hrun : getCompletionItems sampleClass sampleScore failingCompletion
                   (goClient 2) (oneLineView "f") "f" 0 0 p = (Ok [], emit [q] p))
    by reflexivity.
  assert (Htr : trace (emit [q] p) = trace p ++ [q]) by reflexivity.
  assert (Hin : In q [q]) by (by left).
  split; [exact Hrun|]. split; [exact Htr|]. split; [exact Hin|].
  destruct (getCompletionItems_query_fails sampleClass sampleScore failingCompletion
              p (emit [q] p) (goClient 2) (oneLineView "f") "f" 0 0 (Ok []) [q]
              (goClient 2)
              (paramsAt (oneLineView "f") {| lsp.Line := 0; lsp.Character := 0 |})
              Hrun Htr Hin)
    as (_ & Hidle & _ & Hitems & Hheap & Hshown).
  repeat split; assumption.
Defined.

(** C2 at the input where the code departs from it. The session is Idle
    and the edit inserts the single letter U+0434 after "a" at column 1; the
    letter is an identifier character and the word before the cursor starts
    at column 0. Its text is two bytes long, so the test [len(text) == 1]
    fails, the word is not scanned, and the query goes out anchored at
    column 1, both from [getCompletionItems] and from [complete]. *)
Theorem getCompletionItems_multibyte_anchor :
  let p := samplePlugin 2 lineWithDe [] in
  let view := oneLineView lineWithDe in
  runes cyrillicDe = [1076] /\
  sampleClass 1076 = 2 /\
  completionItems p = [] /\
  getWord sampleClass view 0 1 = Ok (0, [97; 1076]) /\
  (exists reply rest,
      trace (snd (getCompletionItems sampleClass sampleScore sampleCompletion
                    (goClient 2) view cyrillicDe 0 1 p)) =
      CompletionQuery (goClient 2)
        (paramsAt view {| lsp.Line := 0; lsp.Character := 1 |}) reply :: rest) /\
  (exists reply rest,
      trace (snd (complete sampleClass sampleScore sampleCompletion
                    (goClient 2) view cyrillicDe "" 0 1 p)) =
      CompletionQuery (goClient 2)
        (paramsAt view {| lsp.Line := 0; lsp.Character := 1 |}) reply :: rest).
Proof.
  intros p view.
  split; [reflexivity|]. split; [reflexivity|]. split; [reflexivity|].
  split; [reflexivity|].
  split; eexists _, _; vm_compute; reflexivity.
Qed.

(** The same edit with a letter of one byte: the query is anchored at the
    start of the word, column 0. *)
Example getCompletionItems_ascii_anchor :
  exists reply rest,
    trace (snd (getCompletionItems sampleClass sampleScore sampleCompletion
                  (goClient 2) (oneLineView "af") "f" 0 1
                  (samplePlugin 2 "af" []))) =
    CompletionQuery (goClient 2)
      (paramsAt (oneLineView "af") {| lsp.Line := 0; lsp.Character := 0 |}) reply
    :: rest.
Proof. eexists _, _. vm_compute. reflexivity. Qed.

(** The narrowing of the specification's example: with "foo", "bar" and
    "food" held and the prefix "fo" typed, inserting "o" ranks the stored
    list against "foo" and sends nothing. *)
Example getCompletionItems_narrow_foo :
  let run := getCompletionItems sampleClass sampleScore sampleCompletion
               (goClient 2) (oneLineView "foo") "o" 0 2
               (samplePlugin 2 "foo" [1%positive; 2%positive; 3%positive]) in
  fst run = Ok [3%positive; 1%positive] /\ trace (snd run) = [].
Proof. split; reflexivity. Qed.

(** ** The embedding on small inputs *)

Example runes_ascii : runes "foo.bar" = [102; 111; 111; 46; 98; 97; 114].
Proof. reflexivity. Qed.

Example runes_two_bytes : runes cyrillicDe = [1076] /\ String.length cyrillicDe = 2%nat.
Proof. split; reflexivity. Qed.

Example runes_invalid_byte :
  runes (String (ascii_of_nat 255) "a") = [RuneError; 97].
Proof. reflexivity. Qed.

Example runes_truncated :
  runes (String (ascii_of_nat 208) "a") = [RuneError; 97].
Proof. reflexivity. Qed.

Example getWord_whole_line :
  getWord sampleClass (oneLineView "foo") 0 2 = Ok (0, ascii_runes "foo").
Proof. reflexivity. Qed.

Example getWord_after_dot :
  getWord sampleClass (oneLineView "foo.") 0 3 = Ok (4, []).
Proof. reflexivity. Qed.

Example getWord_no_such_row :
  getWord sampleClass (oneLineView "foo") 1 0 = Panic.
Proof. reflexivity. Qed.

Example matchCompletionItems_nil_pointer :
  fst (matchCompletionItems sampleScore [4%positive] (ascii_runes "fo") sampleHeap)
  = Panic.
Proof. reflexivity. Qed.

Example matchCompletionItems_empty_prefix :
  fst (matchCompletionItems sampleScore [1%positive; 2%positive; 3%positive] []
         sampleHeap) = Ok [1%positive; 2%positive; 3%positive].
Proof. reflexivity. Qed.

Example matchCompletionItems_same_pointer_twice :
  fst (matchCompletionItems sampleScore [1%positive; 3%positive; 1%positive]
         (ascii_runes "fo") sampleHeap) = Ok [3%positive; 1%positive; 1%positive].
Proof. reflexivity. Qed.

Example handle_no_such_view :
  handle sampleClass sampleScore SampleUpdate fst sampleApply sampleCompletion
    (UpdateRequest SampleUpdate ("w", true)) (samplePlugin 1 "fo" [])
  = (RetNil, samplePlugin 1 "fo" []).
Proof. reflexivity. Qed.

Example handle_incremental :
  exists rest,
    trace (snd (handle sampleClass sampleScore SampleUpdate fst sampleApply
                  sampleCompletion (UpdateRequest SampleUpdate ("v", true))
                  (samplePlugin 2 "fo" []))) =
    DidChange (goClient 2)
      {| lsp.TextDocument := {| lsp.URI := "file:///a.go"; lsp.Version := 2 |};
         lsp.ContentChanges :=
           [{| lsp.Range_ :=
                 Some {| lsp.Start := {| lsp.Line := 0; lsp.Character := 2 |};
                         lsp.End_ := {| lsp.Line := 0; lsp.Character := 2 |} |};
               lsp.Text := "o" |}] |}
    :: rest.
Proof. eexists. vm_compute. reflexivity. Qed.

(** ** The further properties at concrete inputs *)

Lemma matchCompletionItems_empty_prefix_keeps_witness :
  Forall (allocated matchedHeap) [1%positive; 3%positive] /\
  exists h',
    matchCompletionItems sampleScore [1%positive; 3%positive] [] matchedHeap
      = (Ok [1%positive; 3%positive], h') /\
    Forall (cleared h') [1%positive; 3%positive] /\
    (forall item, lsp.InsertText <$> (h' !! item)
                  = lsp.InsertText <$> (matchedHeap !! item)) /\
    (forall item, lsp.Score <$> (h' !! item) = lsp.Score <$> (matchedHeap !! item)) /\
    (forall item, ~ In item [1%positive; 3%positive] ->
                  h' !! item = matchedHeap !! item).
Proof.
  assert (H : Forall (allocated matchedHeap) [1%positive; 3%positive]).
  { repeat (constructor; [eexists; reflexivity|]). constructor. }
  split; [exact H|].
  exact (matchCompletionItems_empty_prefix_keeps sampleScore matchedHeap _ H).
Defined.

Lemma matchCompletionItems_returns_iff_witness :
  Forall (allocated sampleHeap) [1%positive; 2%positive; 3%positive] /\
  exists res h',
    matchCompletionItems sampleScore [1%positive; 2%positive; 3%positive]
      (ascii_runes "fo") sampleHeap = (Ok res, h').
Proof.
  assert (H : Forall (allocated sampleHeap) [1%positive; 2%positive; 3%positive]).
  { repeat (constructor; [eexists; reflexivity|]). constructor. }
  split; [exact H|].
  exact (proj2 (matchCompletionItems_returns_iff sampleScore sampleHeap _ _) H).
Defined.

Lemma matchCompletionItems_frame_witness :
  let run := matchCompletionItems sampleScore [1%positive; 4%positive]
               (ascii_runes "fo") sampleHeap in
  run = (Panic, snd run) /\
  dom (snd run) = dom sampleHeap /\
  (forall item, lsp.InsertText <$> (snd run !! item)
                = lsp.InsertText <$> (sampleHeap !! item)) /\
  (forall item, ~ In item [1%positive; 4%positive] ->
                snd run !! item = sampleHeap !! item).
Proof.
  intros run.
  assert (H : run = (Panic, snd run)) by reflexivity.
  split; [exact H|].
  exact (matchCompletionItems_frame sampleScore sampleHeap (snd run) _ _ Panic H).
Defined.

Lemma matchCompletionItems_permutation_witness :
  ascii_runes "fo" <> [] /\
  Forall (allocated sampleHeap) [1%positive; 2%positive; 3%positive; 1%positive] /\
  exists res h',
    matchCompletionItems sampleScore [1%positive; 2%positive; 3%positive; 1%positive]
      (ascii_runes "fo") sampleHeap = (Ok res, h') /\
    Permutation res
      (List.filter
         (fun c => matchFloor <=? matchScoreOf sampleScore sampleHeap (ascii_runes "fo") c)
         [1%positive; 2%positive; 3%positive; 1%positive]).
Proof.
  assert (Hw : ascii_runes "fo" <> []) by discriminate.
  assert (H : Forall (allocated sampleHeap)
                [1%positive; 2%positive; 3%positive; 1%positive]).
  { repeat (constructor; [eexists; reflexivity|]). constructor. }
  split; [exact Hw|]. split; [exact H|].
  exact (matchCompletionItems_permutation sampleScore sampleHeap _ _ Hw H).
Defined.

Lemma matchCompletionItems_stable_witness :
  ascii_runes "f" <> [] /\
  Forall (allocated sampleHeap) [3%positive; 1%positive; 3%positive] /\
  matchFloor <= 2 /\
  exists res h',
    matchCompletionItems sampleScore [3%positive; 1%positive; 3%positive]
      (ascii_runes "f") sampleHeap = (Ok res, h') /\
    List.filter (fun c => matchScoreOf sampleScore sampleHeap (ascii_runes "f") c =? 2) res
    = List.filter (fun c => matchScoreOf sampleScore sampleHeap (ascii_runes "f") c =? 2)
        [3%positive; 1%positive; 3%positive].
Proof.
  assert (Hw : ascii_runes "f" <> []) by discriminate.
  assert (H : Forall (allocated sampleHeap) [3%positive; 1%positive; 3%positive]).
  { repeat (constructor; [eexists; reflexivity|]). constructor. }
  assert (Hs : matchFloor <= 2) by (unfold matchFloor; lia).
  split; [exact Hw|]. split; [exact H|]. split; [exact Hs|].
  exact (matchCompletionItems_stable sampleScore sampleHeap _ _ 2 Hw H Hs).
Defined.

Lemma getWord_same_start_witness :
  index (plugin.Lines (plugin.Cache (oneLineView "foo.bar"))) 0
    = Ok (Some {| plugin.Text := "foo.bar" |}) /\
  6 < len (runes "foo.bar") /\
  getWord sampleClass (oneLineView "foo.bar") 0 6 = Ok (4, ascii_runes "bar") /\
  4 <= 5 <= 6 /\
  getWord sampleClass (oneLineView "foo.bar") 0 5 = Ok (4, ascii_runes "ba").
Proof.
  assert (H : 4 <= 5 <= 6) by lia.
  split; [reflexivity|]. split; [reflexivity|]. split; [reflexivity|].
  split; [exact H|].
  exact (getWord_same_start sampleClass (oneLineView "foo.bar") 0 6 5
           {| plugin.Text := "foo.bar" |} 4 (ascii_runes "bar")
           eq_refl eq_refl eq_refl H).
Defined.

Lemma complete_idle_deletion_witness :
  completionItems (samplePlugin 2 "f" []) = [] /\
  complete sampleClass sampleScore sampleCompletion (goClient 2) (oneLineView "f")
    "" "o" 0 1 (samplePlugin 2 "f" [])
  = (Ok tt, afterReset (samplePlugin 2 "f" [])).
Proof.
  split; [reflexivity|].
  exact (complete_idle_deletion sampleClass sampleScore sampleCompletion
           (samplePlugin 2 "f" []) (goClient 2) (oneLineView "f") "o" 0 1 eq_refl).
Defined.



Lemma complete_shown_witness :
  let run := complete sampleClass sampleScore sampleCompletion (goClient 2)
               (oneLineView "foo") "o" "" 0 2
               (samplePlugin 2 "foo" [1%positive; 2%positive; 3%positive]) in
  run = (Ok tt, snd run) /\
  exists items before,
    trace (snd run) = before ++
      map (fun conn => NotifyCompletion conn
                         (map (fun item => heap (snd run) !! item) items))
        (conns (snd run)) /\
    (completionShown (snd run) = true <-> items <> []).
Proof.
  intros run.
  assert (H : run = (Ok tt, snd run)) by reflexivity.
  split; [exact H|].
  exact (complete_shown sampleClass sampleScore sampleCompletion (goClient 2)
           (oneLineView "foo") "o" "" 0 2
           (samplePlugin 2 "foo" [1%positive; 2%positive; 3%positive]) (snd run) H).
Defined.


Lemma runes_length_witness :
  String.length cyrillicDe = 2%nat /\
  len (runes cyrillicDe) <= 2 /\
  String.length "f" = 1%nat /\
  exists r, index (runes "f") 0 = Ok r /\ runes "f" = [r].
Proof.
  split; [reflexivity|].
  split; [exact (proj1 (runes_length cyrillicDe))|].
  split; [reflexivity|].
  exact (proj2 (proj2 (runes_length "f")) eq_refl).
Defined.

Lemma handle_missing_registry_entry_witness :
  views (samplePlugin 1 "fo" []) !! fst (("w", true) : SampleUpdate) = None /\
  handle sampleClass sampleScore SampleUpdate fst sampleApply sampleCompletion
    (UpdateRequest SampleUpdate ("w", true)) (samplePlugin 1 "fo" [])
  = (RetNil, samplePlugin 1 "fo" []) /\
  views noBackendPlugin !! fst (("v", true) : SampleUpdate) = Some (oneLineView "fo") /\
  lsp noBackendPlugin
    !! plugin.Syntax (fst (sampleApply (oneLineView "fo") ("v", true))) = None /\
  handle sampleClass sampleScore SampleUpdate fst sampleApply sampleCompletion
    (UpdateRequest SampleUpdate ("v", true)) noBackendPlugin
  = (RetNil,
     set_views (<["v"%string := fst (sampleApply (oneLineView "fo") ("v", true))]>
                  (views noBackendPlugin)) noBackendPlugin).
Proof.
  split; [reflexivity|].
  split.
  { exact (proj1 (handle_missing_registry_entry sampleClass sampleScore SampleUpdate
                    fst sampleApply sampleCompletion (samplePlugin 1 "fo" [])
                    ("w"%string, true)) eq_refl). }
  split; [reflexivity|]. split; [reflexivity|].
  exact (proj2 (handle_missing_registry_entry sampleClass sampleScore SampleUpdate
                  fst sampleApply sampleCompletion noBackendPlugin ("v"%string, true))
           (oneLineView "fo") (fst (sampleApply (oneLineView "fo") ("v"%string, true)))
           (sampleDelta true) eq_refl eq_refl eq_refl eq_refl).
Defined.


Example handleInitialization_two_go_buffers :
  let run := handleInitialization sampleExt sampleNewClient (Some "/work"%string)
               sampleInitialize sampleReadFile sampleSetRaw sampleDidOpen
               [goBuffer "/a.go" "a"; goBuffer "/b.go" "b"] freshState in
  fst run = Some (RetInt 0) /\
  lspMutex (snd run) = false /\
  calls (snd run) =
    [CallNewClient "go"; CallInitialize (goClient 0) "/work";
     CallDidOpen (goClient 2) "/a.go" "main"; CallDidOpen (goClient 2) "/b.go" "main"] /\
  lsp (plug (snd run)) !! "go"%string = Some (goClient 2).
Proof. repeat split; reflexivity. Qed.

Example handleInitialization_no_views :
  handleInitialization sampleExt sampleNewClient (Some "/work"%string)
    sampleInitialize sampleReadFile sampleSetRaw sampleDidOpen
    [{| buffer.Path := "/a.go"; buffer.Views := [] |}] freshState
  = (Some RetNil, freshState).
Proof. reflexivity. Qed.

Lemma handleInitialization_grows_witness :
  let s' := snd (handleInitialization sampleExt sampleNewClient (Some "/work"%string)
                   sampleInitialize sampleReadFile sampleSetRaw sampleDidOpen
                   [goBuffer "/b.go" "b"; goBuffer "/c.rs" "c"] goState) in
  lsp (plug goState) !! "go"%string = Some (goClient 2) /\
  is_Some (views (plug goState) !! "v"%string) /\
  lsp (plug s') !! "go"%string = Some (goClient 2) /\
  is_Some (views (plug s') !! "v"%string) /\
  trace (plug s') = trace (plug goState).
Proof.
  intros s'.
  assert (H1 : lsp (plug goState) !! "go"%string = Some (goClient 2)) by reflexivity.
  assert (H2 : is_Some (views (plug goState) !! "v"%string)) by (eexists; reflexivity).
  split; [exact H1|]. split; [exact H2|].
  destruct (handleInitialization_grows sampleExt sampleNewClient (Some "/work"%string)
              sampleInitialize sampleReadFile sampleSetRaw sampleDidOpen
              [goBuffer "/b.go" "b"; goBuffer "/c.rs" "c"] goState)
    as (Hlsp & Hviews & _ & _ & _ & _ & Htrace).
  split; [exact (Hlsp _ _ H1)|]. split; [exact (Hviews _ H2)|exact Htrace].
Defined.

Lemma handleInitialization_backend_failure_witness :
  lspMutex freshState = false /\
  buffer.Views (goBuffer "/c.rs" "c") <> [] /\
  lsp (plug freshState) !! trimDot (sampleExt (buffer.Path (goBuffer "/c.rs" "c"))) = None /\
  backendUnavailable sampleNewClient (Some "/work"%string) sampleInitialize freshState
    (trimDot (sampleExt (buffer.Path (goBuffer "/c.rs" "c")))) /\
  exists s',
    handleInitialization sampleExt sampleNewClient (Some "/work"%string)
      sampleInitialize sampleReadFile sampleSetRaw sampleDidOpen
      (goBuffer "/c.rs" "c" :: [goBuffer "/a.go" "a"]) freshState = (Some RetNil, s') /\
    lspMutex s' = true /\
    lsp (plug s') = lsp (plug freshState) /\
    (forall buf' rest', buffer.Views buf' <> [] ->
       fst (handleInitialization sampleExt sampleNewClient (Some "/work"%string)
              sampleInitialize sampleReadFile sampleSetRaw sampleDidOpen
              (buf' :: rest') s') = None).
Proof.
  assert (Hv : buffer.Views (goBuffer "/c.rs" "c") <> []) by discriminate.
  assert (Hf : backendUnavailable sampleNewClient (Some "/work"%string) sampleInitialize
                 freshState (trimDot (sampleExt (buffer.Path (goBuffer "/c.rs" "c")))))
    by exact I.
  split; [reflexivity|]. split; [exact Hv|]. split; [reflexivity|]. split; [exact Hf|].
  exact (handleInitialization_backend_failure sampleExt sampleNewClient
           (Some "/work"%string) sampleInitialize sampleReadFile sampleSetRaw
           sampleDidOpen (goBuffer "/c.rs" "c") [goBuffer "/a.go" "a"] freshState
           eq_refl Hv eq_refl Hf).
Defined.

Lemma handleInitialization_success_witness :
  let bufs := [goBuffer "/a.go" "a"; goBuffer "/b.go" "b"] in
  let run := handleInitialization sampleExt sampleNewClient (Some "/work"%string)
               sampleInitialize sampleReadFile sampleSetRaw sampleDidOpen
               bufs freshState in
  run = (Some (RetInt 0), snd run) /\
  bufs <> [] /\
  lspMutex (snd run) = false /\
  forall buf, In buf bufs ->
    is_Some (lsp (plug (snd run)) !! trimDot (sampleExt (buffer.Path buf))) /\
    exists viewID, buffer.Views buf !! 0%nat = Some viewID /\
                   is_Some (views (plug (snd run)) !! viewID).
Proof.
  intros bufs run.
  assert (H : run = (Some (RetInt 0), snd run)) by reflexivity.
  assert (Hne : bufs <> []) by discriminate.
  split; [exact H|]. split; [exact Hne|].
  exact (handleInitialization_success sampleExt sampleNewClient (Some "/work"%string)
           sampleInitialize sampleReadFile sampleSetRaw sampleDidOpen
           bufs freshState (snd run) H Hne).
Defined.

Lemma handleInitialization_opens_witness :
  let bufs := [goBuffer "/a.go" "a"; goBuffer "/b.go" "b"] in
  let run := handleInitialization sampleExt sampleNewClient (Some "/work"%string)
               sampleInitialize sampleReadFile sampleSetRaw sampleDidOpen
               bufs freshState in
  run = (Some (RetInt 0), snd run) /\
  exists new,
    calls (snd run) = calls freshState ++ new /\
    Forall2 (fun buf oc => fst oc = buffer.Path buf /\
                           sampleReadFile (buffer.Path buf) = Some (snd oc))
      bufs (openedOf new).
Proof.
  intros bufs run.
  assert (H : run = (Some (RetInt 0), snd run)) by reflexivity.
  split; [exact H|].
  exact (handleInitialization_opens sampleExt sampleNewClient (Some "/work"%string)
           sampleInitialize sampleReadFile sampleSetRaw sampleDidOpen
           bufs freshState (snd run) H).
Defined.

Lemma handleInitialization_cut_witness :
  let failing := [goBuffer "/a.go" "a"; goBuffer "/missing.go" "m"] in
  let later := [goBuffer "/b.go" "b"] in
  let run := handleInitialization sampleExt sampleNewClient (Some "/work"%string)
               sampleInitialize sampleReadFile sampleSetRaw sampleDidOpen
               failing freshState in
  run = (Some RetNil, snd run) /\
  Some RetNil <> Some (RetInt 0) /\
  handleInitialization sampleExt sampleNewClient (Some "/work"%string)
    sampleInitialize sampleReadFile sampleSetRaw sampleDidOpen
    (failing ++ later) freshState = (Some RetNil, snd run) /\
  views (plug (snd run)) !! "b"%string = None.
Proof.
  intros failing later run.
  assert (H : run = (Some RetNil, snd run)) by reflexivity.
  assert (Hne : Some RetNil <> Some (RetInt 0)) by discriminate.
  split; [exact H|]. split; [exact Hne|].
  split; [|reflexivity].
  exact (handleInitialization_cut sampleExt sampleNewClient (Some "/work"%string)
           sampleInitialize sampleReadFile sampleSetRaw sampleDidOpen
           failing later freshState (snd run) (Some RetNil) H Hne).
Defined.

Lemma handleInitialization_creates_once_witness :
  exists new,
    calls (snd (handleInitialization sampleExt sampleNewClient (Some "/work"%string)
                  sampleInitialize sampleReadFile sampleSetRaw sampleDidOpen
                  [goBuffer "/a.go" "a"; goBuffer "/b.go" "b"] freshState))
    = calls freshState ++ new /\
    List.NoDup (createdOf new) /\
    forall syntax, In syntax (createdOf new) -> lsp (plug freshState) !! syntax = None.
Proof.
  exact (handleInitialization_creates_once sampleExt sampleNewClient
           (Some "/work"%string) sampleInitialize sampleReadFile sampleSetRaw
           sampleDidOpen [goBuffer "/a.go" "a"; goBuffer "/b.go" "b"] freshState).
Defined.
